(** * Key hashing for the columnar engine: a shallow embedding of
      cpp/include/cudf/detail/utilities/hash_functions.cuh

    The three hash functors of the header ([MurmurHash3_32],
    [SparkMurmurHash3_32], [IdentityHash]) are embedded as Rocq functions
    over [Z]-valued machine words and [list byte] spans, one module per
    struct, with the member names of the source.  A [uint32_t] is a [Z]
    with its wrap-around written out; a floating-point key is its IEEE-754
    bit pattern; the object representation of a key is little-endian. *)

From Stdlib Require Import ZArith List Lia Bool.
From Stdlib Require Import Strings.Byte.
Import ListNotations.
Open Scope Z_scope.

(** ** Machine words and bytes *)

(** Conversion to [uint32_t]: the value modulo 2^32. *)
Definition wrap32 (x : Z) : Z := x mod 2 ^ 32.

(** Conversion to [uint64_t]. *)
Definition wrap64 (x : Z) : Z := x mod 2 ^ 64.

(** [uint32_t] multiplication and addition. *)
Definition mul32 (a b : Z) : Z := wrap32 (a * b).
Definition add32 (a b : Z) : Z := wrap32 (a + b).

(** [std::to_integer<uint8_t>(b)]. *)
Definition to_uint8 (b : byte) : Z := Z.of_N (Byte.to_N b).

(** [std::to_integer<int8_t>(b)]: the same eight bits read as two's
    complement. *)
Definition to_int8 (b : byte) : Z :=
  let u := to_uint8 b in if u <? 128 then u else u - 256.

(** The byte holding the low eight bits of [z]. *)
Definition byte_of_Z (z : Z) : byte :=
  match Byte.of_N (Z.to_N (z mod 256)) with
  | Some b => b
  | None => x00
  end.

(** [data[i]] for a span held as a list; the source never reads past the
    span, the default only makes the function total. *)
Definition at_offset (data : list byte) (i : Z) : byte :=
  nth (Z.to_nat i) data x00.

(** The object representation of an integer of [size] bytes: little-endian
    two's complement, as [reinterpret_cast<std::byte const*>(&key)] sees
    it on the target. *)
Fixpoint object_bytes (size : nat) (v : Z) : list byte :=
  match size with
  | O => []
  | S n => byte_of_Z v :: object_bytes n (Z.shiftr v 8)
  end.

(** [for (i = lo; i < lo + n; i++) a = body i a]. *)
Fixpoint for_loop {A : Type} (n : nat) (i : Z) (body : Z -> A -> A) (a : A) : A :=
  match n with
  | O => a
  | S n' => for_loop n' (i + 1) body (body i a)
  end.

(** [for (i = lo; i < hi; i++)]: no iteration when [hi <= lo]. *)
Definition for_range {A : Type} (lo hi : Z) (body : Z -> A -> A) (a : A) : A :=
  for_loop (Z.to_nat (hi - lo)) lo body a.

(** ** Faults *)

Inductive fault : Type :=
| UnsupportedKeyType.

(** A call either returns a value or stops with a fault. *)
Inductive result (A : Type) : Type :=
| Value (a : A)
| Fault (f : fault).
Arguments Value {A} a.
Arguments Fault {A} f.

Definition bind {A B : Type} (m : result A) (k : A -> result B) : result B :=
  match m with
  | Value a => k a
  | Fault f => Fault f
  end.

Notation "m ;; k" := (bind m (fun _ => k))
  (at level 61, right associativity).

(** Modelled from the spec: [cudf_assert], declared in
    cudf/detail/utilities/assert.cuh, which is not among the sources.  The
    specification describes it as a crash-on-violation check: a false
    condition is the unconditionally fatal Unsupported-Key-Type fault, a true
    one lets the call go on. *)
Definition cudf_assert (e : bool) : result unit :=
  if e then Value tt else Fault UnsupportedKeyType.

(** ** Keys *)

Inductive int_type : Type :=
| Int8 | UInt8 | Int16 | UInt16 | Int32 | UInt32 | Int64 | UInt64.

Inductive float_type : Type :=
| Float32 | Float64.

(** Nested views: only their presence matters here. *)
Inductive list_view : Type := mk_list_view (row : Z).
Inductive struct_view : Type := mk_struct_view (row : Z).

(** A column element with its static type.  Integers and decimals carry
    their mathematical value, floating-point keys their bit pattern. *)
Inductive Key : Type :=
| KBool (b : bool)
| KInt (t : int_type) (v : Z)
| KFloating (t : float_type) (bits : Z)
| KString (data : list byte)
| KDecimal32 (v : Z)
| KDecimal64 (v : Z)
| KDecimal128 (v : Z)
| KList (l : list_view)
| KStruct (s : struct_view).

(** [sizeof(T)] in bytes. *)
Definition int_sizeof (t : int_type) : nat :=
  match t with
  | Int8 | UInt8 => 1
  | Int16 | UInt16 => 2
  | Int32 | UInt32 => 4
  | Int64 | UInt64 => 8
  end%nat.

Definition float_sizeof (t : float_type) : nat :=
  match t with
  | Float32 => 4
  | Float64 => 8
  end%nat.

(** Width of the fraction field and of the exponent field. *)
Definition float_fraction_bits (t : float_type) : Z :=
  match t with Float32 => 23 | Float64 => 52 end.

Definition float_exponent_bits (t : float_type) : Z :=
  match t with Float32 => 8 | Float64 => 11 end.

Definition float_fraction (t : float_type) (bits : Z) : Z :=
  Z.land bits (2 ^ float_fraction_bits t - 1).

Definition float_exponent (t : float_type) (bits : Z) : Z :=
  Z.land (Z.shiftr bits (float_fraction_bits t)) (2 ^ float_exponent_bits t - 1).

Definition float_sign (t : float_type) (bits : Z) : bool :=
  Z.testbit bits (float_fraction_bits t + float_exponent_bits t).

(** [std::isnan(key)]: exponent all ones and a non-zero fraction. *)
Definition isnan (t : float_type) (bits : Z) : bool :=
  (float_exponent t bits =? 2 ^ float_exponent_bits t - 1)
  && negb (float_fraction t bits =? 0).

(** [key == T{0.0}]: true of both signed zeros. *)
Definition eq_zero (t : float_type) (bits : Z) : bool :=
  (float_exponent t bits =? 0) && (float_fraction t bits =? 0).

(** The bit pattern of [T{0.0}]. *)
Definition zero (t : float_type) : Z := 0.

(** The bit pattern of [std::numeric_limits<T>::quiet_NaN()]. *)
Definition quiet_NaN (t : float_type) : Z :=
  match t with
  | Float32 => 0x7fc00000
  | Float64 => 0x7ff8000000000000
  end.

(** [cudf::detail::normalize_nans_and_zeros] at a floating-point type. *)
Definition normalize_nans_and_zeros (t : float_type) (key : Z) : Z :=
  if isnan t key then quiet_NaN t
  else if eq_zero t key then zero t
  else key.

(** ** The generic block-mixing hash *)

Module MurmurHash3_32.

Definition rotl32 (x r : Z) : Z :=
  let s := Z.land r 31 in
  wrap32 (Z.lor (Z.shiftl x s) (Z.shiftr x (32 - s))).

Definition fmix32 (h : Z) : Z :=
  let h := Z.lxor h (Z.shiftr h 16) in
  let h := mul32 h 0x85ebca6b in
  let h := Z.lxor h (Z.shiftr h 13) in
  let h := mul32 h 0xc2b2ae35 in
  let h := Z.lxor h (Z.shiftr h 16) in
  h.

Definition getblock32 (data : list byte) (offset : Z) : Z :=
  let block i := to_uint8 (at_offset data (offset + i)) in
  wrap32 (Z.lor (Z.lor (Z.lor (block 0) (Z.shiftl (block 1) 8))
                       (Z.shiftl (block 2) 16))
                (Z.shiftl (block 3) 24)).

Definition c1 : Z := 0xcc9e2d51.
Definition c2 : Z := 0x1b873593.
Definition c3 : Z := 0xe6546b64.
Definition rot_c1 : Z := 15.
Definition rot_c2 : Z := 13.
Definition BLOCK_SIZE : Z := 4.

(** The body of the four-byte-chunk loop. *)
Definition block_body (data : list byte) (i : Z) (h1 : Z) : Z :=
  let k1 := getblock32 data (i * BLOCK_SIZE) in
  let k1 := mul32 k1 c1 in
  let k1 := rotl32 k1 rot_c1 in
  let k1 := mul32 k1 c2 in
  let h1 := Z.lxor h1 k1 in
  let h1 := rotl32 h1 rot_c2 in
  add32 (mul32 h1 5) c3.

(** The [switch (len % 4)] with its fall-through cases. *)
Definition tail_switch (data : list byte) (tail_offset len h1 : Z) : Z :=
  let r := Z.rem len 4 in
  let k1 := 0 in
  let k1 := if r =? 3
            then Z.lxor k1 (Z.shiftl (to_uint8 (at_offset data (tail_offset + 2))) 16)
            else k1 in
  let k1 := if (r =? 3) || (r =? 2)
            then Z.lxor k1 (Z.shiftl (to_uint8 (at_offset data (tail_offset + 1))) 8)
            else k1 in
  if (r =? 3) || (r =? 2) || (r =? 1)
  then
    let k1 := Z.lxor k1 (to_uint8 (at_offset data tail_offset)) in
    let k1 := mul32 k1 c1 in
    let k1 := rotl32 k1 rot_c1 in
    let k1 := mul32 k1 c2 in
    Z.lxor h1 k1
  else h1.

Definition compute_bytes (m_seed : Z) (data : list byte) (len : Z) : Z :=
  let nblocks := Z.quot len BLOCK_SIZE in
  let tail_offset := nblocks * BLOCK_SIZE in
  let h1 := m_seed in
  let h1 := for_range 0 nblocks (block_body data) h1 in
  let h1 := tail_switch data tail_offset len h1 in
  let h1 := Z.lxor h1 (wrap32 len) in
  fmix32 h1.

(** [compute<T>(key)]: the [sizeof(T)] bytes of the key's object
    representation. *)
Definition compute (m_seed : Z) (size : nat) (key : Z) : Z :=
  compute_bytes m_seed (object_bytes size key) (Z.of_nat size).

Definition compute_floating_point (m_seed : Z) (t : float_type) (key : Z) : Z :=
  if eq_zero t key then compute m_seed (float_sizeof t) (zero t)
  else if isnan t key then
    let nan := quiet_NaN t in
    compute m_seed (float_sizeof t) nan
  else compute m_seed (float_sizeof t) key.

(** [operator()], one branch per specialization. *)
Definition call (m_seed : Z) (key : Key) : result Z :=
  match key with
  | KBool b => Value (compute m_seed 1 (if b then 1 else 0))
  | KInt t v => Value (compute m_seed (int_sizeof t) v)
  | KFloating t bits => Value (compute_floating_point m_seed t bits)
  | KString data => Value (compute_bytes m_seed data (Z.of_nat (length data)))
  | KDecimal32 v => Value (compute m_seed 4 v)
  | KDecimal64 v => Value (compute m_seed 8 v)
  | KDecimal128 v => Value (compute m_seed 16 v)
  | KList _ => cudf_assert false ;; Value 0
  | KStruct _ => cudf_assert false ;; Value 0
  end.

End MurmurHash3_32.

(** ** The reference-engine-compatible hash *)

(** [thrust::find_if_not]: the position of the first element that fails
    [p], the length of the range when every element passes. *)
Fixpoint find_if_not {A : Type} (p : A -> bool) (l : list A) : nat :=
  match l with
  | [] => O
  | x :: l' => if p x then S (find_if_not p l') else O
  end.

Module SparkMurmurHash3_32.

Definition rotl32 (x r : Z) : Z :=
  let s := Z.land r 31 in
  wrap32 (Z.lor (Z.shiftl x s) (Z.shiftr x (32 - s))).

Definition fmix32 (h : Z) : Z :=
  let h := Z.lxor h (Z.shiftr h 16) in
  let h := mul32 h 0x85ebca6b in
  let h := Z.lxor h (Z.shiftr h 13) in
  let h := mul32 h 0xc2b2ae35 in
  let h := Z.lxor h (Z.shiftr h 16) in
  h.

Definition getblock32 (data : list byte) (offset : Z) : Z :=
  let block i := to_uint8 (at_offset data (offset + i)) in
  wrap32 (Z.lor (Z.lor (Z.lor (block 0) (Z.shiftl (block 1) 8))
                       (Z.shiftl (block 2) 16))
                (Z.shiftl (block 3) 24)).

Definition c1 : Z := 0xcc9e2d51.
Definition c2 : Z := 0x1b873593.
Definition c3 : Z := 0xe6546b64.
Definition rot_c1 : Z := 15.
Definition rot_c2 : Z := 13.
Definition BLOCK_SIZE : Z := 4.

(** The body of the four-byte-chunk loop. *)
Definition block_body (data : list byte) (i : Z) (h1 : Z) : Z :=
  let k1 := getblock32 data (i * BLOCK_SIZE) in
  let k1 := mul32 k1 c1 in
  let k1 := rotl32 k1 rot_c1 in
  let k1 := mul32 k1 c2 in
  let h1 := Z.lxor h1 k1 in
  let h1 := rotl32 h1 rot_c2 in
  add32 (mul32 h1 5) c3.

(** The body of the loop over the remaining bytes. *)
Definition tail_body (data : list byte) (i : Z) (h1 : Z) : Z :=
  let k1 := wrap32 (to_int8 (at_offset data i)) in
  let k1 := mul32 k1 c1 in
  let k1 := rotl32 k1 rot_c1 in
  let k1 := mul32 k1 c2 in
  let h1 := Z.lxor h1 k1 in
  let h1 := rotl32 h1 rot_c2 in
  add32 (mul32 h1 5) c3.

Definition compute_bytes (m_seed : Z) (data : list byte) (len : Z) : Z :=
  let nblocks := Z.quot len BLOCK_SIZE in
  let h1 := m_seed in
  let h1 := for_range 0 nblocks (block_body data) h1 in
  let h1 := for_range (nblocks * 4) len (tail_body data) h1 in
  let h1 := Z.lxor h1 (wrap32 len) in
  fmix32 h1.

Definition compute (m_seed : Z) (size : nat) (key : Z) : Z :=
  compute_bytes m_seed (object_bytes size key) (Z.of_nat size).

Definition compute_floating_point (m_seed : Z) (t : float_type) (key : Z) : Z :=
  if isnan t key then
    let nan := quiet_NaN t in
    compute m_seed (float_sizeof t) nan
  else compute m_seed (float_sizeof t) key.

Definition key_size : Z := 16.

(** The number of bytes of a 128-bit unscaled value that are hashed. *)
Definition decimal128_length (val : Z) : Z :=
  let data := object_bytes 16 val in
  let is_negative := val <? 0 in
  let zero_value := if is_negative then xff else x00 in
  let first_nonzero_byte :=
    key_size - Z.of_nat (find_if_not (fun v => Byte.eqb v zero_value) (rev data)) in
  let length := Z.max 1 first_nonzero_byte in
  if (length <? key_size)
     && xorb is_negative
             (negb (Z.land (to_uint8 (at_offset data (length - 1))) 0x80 =? 0))
  then length + 1
  else length.

(** The 16-byte buffer [big_endian_value] after the [reverse_copy]. *)
Definition decimal128_big_endian_data (val : Z) : list byte :=
  let data := object_bytes 16 val in
  let length := Z.to_nat (decimal128_length val) in
  rev (firstn length data) ++ repeat x00 (16 - length).

(** The span [big_endian_data, big_endian_data + length) that is hashed. *)
Definition decimal128_span (val : Z) : list byte :=
  firstn (Z.to_nat (decimal128_length val)) (decimal128_big_endian_data val).

(** [operator()], one branch per specialization. *)
Definition call (m_seed : Z) (key : Key) : result Z :=
  match key with
  | KBool b => Value (compute m_seed 4 (wrap32 (if b then 1 else 0)))
  | KInt (Int8 | UInt8 | Int16 | UInt16) v => Value (compute m_seed 4 (wrap32 v))
  | KInt t v => Value (compute m_seed (int_sizeof t) v)
  | KFloating t bits => Value (compute_floating_point m_seed t bits)
  | KString data => Value (compute_bytes m_seed data (Z.of_nat (length data)))
  | KDecimal32 v => Value (compute m_seed 8 (wrap64 v))
  | KDecimal64 v => Value (compute m_seed 8 (wrap64 v))
  | KDecimal128 val =>
      Value (compute_bytes m_seed (decimal128_big_endian_data val)
                           (decimal128_length val))
  | KList _ => cudf_assert false ;; Value 0
  | KStruct _ => cudf_assert false ;; Value 0
  end.

End SparkMurmurHash3_32.

(** ** The identity hash *)

Module IdentityHash.

(** [std::is_arithmetic_v<Key>]. *)
Definition is_arithmetic (key : Key) : bool :=
  match key with
  | KBool _ | KInt _ _ | KFloating _ _ => true
  | _ => false
  end.

(** The value of a finite floating-point key with its fractional part
    discarded; [None] for infinities and NaNs. *)
Definition float_truncate (t : float_type) (bits : Z) : option Z :=
  let e := float_exponent t bits in
  let f := float_fraction t bits in
  let p := float_fraction_bits t in
  let bias := 2 ^ (float_exponent_bits t - 1) - 1 in
  if e =? 2 ^ float_exponent_bits t - 1 then None
  else
    let magnitude := if e =? 0 then 0 else Z.shiftl (2 ^ p + f) (e - bias - p) in
    Some (if float_sign t bits then - magnitude else magnitude).

(** [static_cast<result_type>(key)] at an arithmetic key.  An integer
    converts modulo 2^32.  A floating-point key converts by truncation
    toward zero; the conversion has no defined result ([None]) when the
    truncated value is not a [uint32_t]. *)
Definition static_cast_result_type (key : Key) : option Z :=
  match key with
  | KBool b => Some (if b then 1 else 0)
  | KInt _ v => Some (wrap32 v)
  | KFloating t bits =>
      match float_truncate t bits with
      | Some z => if (0 <=? z) && (z <? 2 ^ 32) then Some z else None
      | None => None
      end
  | _ => None
  end.

(** [operator()]: the overload is chosen by [is_arithmetic].  [None] is a
    call whose conversion is undefined. *)
Definition call (m_seed : Z) (key : Key) : option (result Z) :=
  if is_arithmetic key
  then option_map Value (static_cast_result_type key)
  else Some (cudf_assert false ;; Value 0).

End IdentityHash.

(** ** The algorithms as the specification words them

    These definitions follow the prose of the specification, by recursion
    on the byte span; the theorems below compare them with the functions
    embedded from the source. *)

Module Reference.

(** Rotate a 32-bit word left by [r] places, [0 < r < 32]. *)
Definition rotate_left (x r : Z) : Z :=
  (x * 2 ^ r) mod 2 ^ 32 + x / 2 ^ (32 - r).

(** Bytes read as a little-endian word, each zero-extended. *)
Fixpoint little_endian (bs : list byte) : Z :=
  match bs with
  | [] => 0
  | b :: bs' => to_uint8 b + 2 ^ 8 * little_endian bs'
  end.

(** Multiply by [c1], rotate left by 15, multiply by [c2]. *)
Definition mix_k1 (k1 : Z) : Z :=
  mul32 (rotate_left (mul32 k1 0xcc9e2d51) 15) 0x1b873593.

(** XOR the mixed word into [h1], rotate left by 13, [h1 * 5 + c3]. *)
Definition mix_h1 (h1 k1 : Z) : Z :=
  add32 (mul32 (rotate_left (Z.lxor h1 (mix_k1 k1)) 13) 5) 0xe6546b64.

(** The state after all four-byte blocks. *)
Fixpoint blocks (h1 : Z) (data : list byte) : Z :=
  match data with
  | b0 :: b1 :: b2 :: b3 :: rest => blocks (mix_h1 h1 (little_endian [b0; b1; b2; b3])) rest
  | _ => h1
  end.

(** The 0 to 3 bytes left after the blocks. *)
Fixpoint tail (data : list byte) : list byte :=
  match data with
  | _ :: _ :: _ :: _ :: rest => tail rest
  | _ => data
  end.

(** The avalanche mix. *)
Definition avalanche (h : Z) : Z :=
  let h := Z.lxor h (h / 2 ^ 16) in
  let h := mul32 h 0x85ebca6b in
  let h := Z.lxor h (h / 2 ^ 13) in
  let h := mul32 h 0xc2b2ae35 in
  Z.lxor h (h / 2 ^ 16).

(** [h1 ^= length], then the avalanche mix. *)
Definition finalize (h1 : Z) (data : list byte) : Z :=
  avalanche (Z.lxor h1 (wrap32 (Z.of_nat (length data)))).

(** Section 4.1: the tail bytes make one zero-extended scratch word, mixed
    and XORed into [h1] once. *)
Definition murmur3_32 (seed : Z) (data : list byte) : Z :=
  let h1 := blocks seed data in
  let h1 := match tail data with
            | [] => h1
            | t => Z.lxor h1 (mix_k1 (little_endian t))
            end in
  finalize h1 data.

(** A byte sign-extended from eight bits to a 32-bit word. *)
Definition sign_extend (b : byte) : Z :=
  if to_uint8 b <? 2 ^ 7 then to_uint8 b else to_uint8 b + (2 ^ 32 - 2 ^ 8).

(** Section 4.2: a tail byte is sign-extended, put through the
    [c1]/rotate/[c2] step and XORed into [h1]; [h1] then takes the rotation
    and multiply-add that end every round. *)
Definition spark_tail (h1 : Z) (b : byte) : Z :=
  mix_h1 h1 (sign_extend b).

(** The tail bytes are folded in one at a time, in span order. *)
Definition spark_murmur3_32 (seed : Z) (data : list byte) : Z :=
  finalize (fold_left spark_tail (tail data) (blocks seed data)) data.

(** A big-endian span read as an unsigned number. *)
Definition big_endian_unsigned (bs : list byte) : Z :=
  fold_left (fun acc b => acc * 256 + to_uint8 b) bs 0.

(** The integer a non-empty big-endian two's-complement span expands to
    by sign extension: its leading byte carries the sign. *)
Definition sign_extend_big_endian (bs : list byte) : option Z :=
  match bs with
  | [] => None
  | b :: _ =>
      Some (if to_uint8 b <? 2 ^ 7
            then big_endian_unsigned bs
            else big_endian_unsigned bs - 256 ^ Z.of_nat (length bs))
  end.

(** The canonical byte representation of a key under the generic hash:
    the bytes of the key after canonicalization, nothing for a nested
    key. *)
Definition canonical_bytes (key : Key) : option (list byte) :=
  match key with
  | KBool b => Some [if b then x01 else x00]
  | KInt t v => Some (object_bytes (int_sizeof t) v)
  | KFloating t bits =>
      Some (object_bytes (float_sizeof t) (normalize_nans_and_zeros t bits))
  | KString data => Some data
  | KDecimal32 v => Some (object_bytes 4 v)
  | KDecimal64 v => Some (object_bytes 8 v)
  | KDecimal128 v => Some (object_bytes 16 v)
  | KList _ | KStruct _ => None
  end.

(** The bit pattern of an arithmetic key read as a 32-bit value: an
    integer in two's complement and a floating-point key in its IEEE-754
    encoding, widened to or cut at 32 bits. *)
Definition bit_pattern32 (key : Key) : option Z :=
  match key with
  | KBool b => Some (if b then 1 else 0)
  | KInt _ v => Some (wrap32 v)
  | KFloating _ bits => Some (wrap32 bits)
  | _ => None
  end.

End Reference.

(** The bit patterns of the two zeros of each floating-point width. *)
Definition positive_zero (t : float_type) : Z := 0.

Definition negative_zero (t : float_type) : Z :=
  2 ^ (float_fraction_bits t + float_exponent_bits t).

(** The values a [uint32_t] holds. *)
Definition is_uint32 (x : Z) : Prop := 0 <= x < 2 ^ 32.

(** The trip count of the block loop on a span of [length data] bytes. *)
Definition nblocks_of (data : list byte) : nat :=
  Z.to_nat (Z.quot (Z.of_nat (length data)) 4).

(** ** Ranges of signed integers *)

Definition pow256 (n : nat) : Z := 256 ^ Z.of_nat n.

(** [v] is a two's-complement number of [n] bytes. *)
Definition fits_signed (n : nat) (v : Z) : Prop :=
  - pow256 n <= 2 * v < pow256 n.

(** Every byte of [v] from position [n] upwards is the sign fill. *)
Definition fill_above (n : nat) (v : Z) : Prop :=
  - pow256 n <= v < pow256 n.

(** The values of [__int128_t]. *)
Definition is_int128 (v : Z) : Prop := - 2 ^ 127 <= v < 2 ^ 127.

(** The sign-fill byte of the decimal encoder, as a number. *)
Definition fill_value (v : Z) : Z := if v <? 0 then 255 else 0.

(** A little-endian span read as an unsigned number. *)
Fixpoint little_endian_unsigned (bs : list byte) : Z :=
  match bs with
  | [] => 0
  | b :: bs' => little_endian_unsigned bs' * 256 + to_uint8 b
  end.

(** ** Hexadecimal rendering of a word *)

(** [cudf::detail::uint32ToLowercaseHexString]: the eight bytes the
    [memcpy] stores at [destination].  [x] is a [uint64_t]. *)
Definition uint32ToLowercaseHexString (num : Z) : list byte :=
  let x := num in
  let x := Z.lor (wrap64 (Z.shiftl (Z.land x 0xFFFF0000) 16)) (Z.land x 0xFFFF) in
  let x := Z.lor (Z.lor (Z.lor (wrap64 (Z.shiftl (Z.land x 0xF0000000F) 8))
                               (Z.shiftr (Z.land x 0xF0000000F0) 4))
                        (wrap64 (Z.shiftl (Z.land x 0xF0000000F00) 16)))
                 (wrap64 (Z.shiftl (Z.land x 0xF0000000F000) 4)) in
  let offsets :=
    wrap64 (Z.land (Z.shiftr (wrap64 (x + 0x0606060606060606)) 4)
                   0x0101010101010101 * 0x27) in
  let x := Z.lor x 0x3030303030303030 in
  let x := wrap64 (x + offsets) in
  object_bytes 8 x.

(** The ASCII code of the lowercase hexadecimal digit of [v], [0 <= v < 16]. *)
Definition hex_digit (v : Z) : byte :=
  byte_of_Z (if v <? 10 then 48 + v else 87 + v).

(** The two digits of a byte, high nibble first. *)
Definition hex_of_byte (b : byte) : list byte :=
  [hex_digit (to_uint8 b / 16); hex_digit (to_uint8 b mod 16)].

(** Two 32-bit lanes of a 64-bit word: [a] below, [b] above. *)
Definition lanes (a b : Z) : Z := a + 2 ^ 32 * b.

(** What [uint32ToLowercaseHexString] does to one 16-bit half of [num],
    within the 32-bit lane the half is spread over. *)
Definition hex_lane_spread (w : Z) : Z :=
  Z.lor (Z.lor (Z.lor (Z.land w 0xF * 2 ^ 8) (Z.land (w / 2 ^ 4) 0xF))
               (Z.land w 0xF00 * 2 ^ 16))
        (Z.land w 0xF000 * 2 ^ 4).

Definition hex_lane_offsets (w : Z) : Z :=
  Z.land ((hex_lane_spread w + 0x06060606) / 2 ^ 4) 0x01010101 * 0x27.

Definition hex_lane (w : Z) : Z :=
  Z.lor (hex_lane_spread w) 0x30303030 + hex_lane_offsets w.

(** Equality of byte spans, as a test. *)
Fixpoint span_eqb (l1 l2 : list byte) : bool :=
  match l1, l2 with
  | [], [] => true
  | b1 :: l1', b2 :: l2' => Byte.eqb b1 b2 && span_eqb l1' l2'
  | _, _ => false
  end.

(** The lane facts the proof of the rendering needs, as one test per
    16-bit value. *)
Definition hex_lane_ok (w : Z) : bool :=
  (0 <=? hex_lane_spread w) && (hex_lane_spread w <? 2 ^ 28)
  && (0 <=? hex_lane_offsets w) && (hex_lane w <? 2 ^ 32)
  && span_eqb (object_bytes 4 (hex_lane w))
              (flat_map hex_of_byte (object_bytes 2 w)).

(** [p] holds of the [n] integers from [i] upwards. *)
Fixpoint forall_from (p : Z -> bool) (n : nat) (i : Z) : bool :=
  match n with
  | O => true
  | S n' => p i && forall_from p n' (i + 1)
  end.

(** ** Regex flags *)

Module regex_flags.

(** The enumerators of [cudf::strings::regex_flags]; a flag set is a
    [uint32_t] made by or-ing them. *)
Definition DEFAULT : Z := 0.
Definition MULTILINE : Z := 8.
Definition DOTALL : Z := 16.

Definition is_multiline (f : Z) : bool :=
  Z.land f MULTILINE =? MULTILINE.

Definition is_dotall (f : Z) : bool :=
  Z.land f DOTALL =? DOTALL.

End regex_flags.

(** * Properties *)

(** ** The embedding on known values *)

(** MurmurHash3_x86_32 of the empty span with seed 1, and of "abc" and
    "abcd" with seed 0. *)
Example murmur3_empty_seed1 :
  MurmurHash3_32.compute_bytes 1 [] 0 = 0x514e28b7.
Proof. vm_compute. reflexivity. Qed.

Example murmur3_abc :
  MurmurHash3_32.compute_bytes 0 [x61; x62; x63] 3 = 0xb3dd93fa.
Proof. vm_compute. reflexivity. Qed.

Example murmur3_abcd :
  MurmurHash3_32.compute_bytes 0 [x61; x62; x63; x64] 4 = 0x43ed676a.
Proof. vm_compute. reflexivity. Qed.

(** The reference engine hashes the integer 1 with seed 42 to
    -559580957. *)
Example spark_hash_int_1 :
  SparkMurmurHash3_32.call 42 (KInt Int32 1) = Value (wrap32 (-559580957)).
Proof. vm_compute. reflexivity. Qed.

(** ** Bytes and object representations *)

Lemma to_uint8_range (b : byte) : 0 <= to_uint8 b < 256.
Proof.
  unfold to_uint8. pose proof (Byte.to_N_bounded b). lia.
Qed.

Lemma to_uint8_byte_of_Z (z : Z) : to_uint8 (byte_of_Z z) = z mod 256.
Proof.
  unfold to_uint8, byte_of_Z.
  assert (Hr : 0 <= z mod 256 < 256) by (apply Z.mod_pos_bound; lia).
  destruct (Byte.of_N (Z.to_N (z mod 256))) as [b|] eqn:E.
  - apply Byte.to_of_N in E. rewrite E. apply Z2N.id. lia.
  - exfalso.
    pose proof (Byte.to_of_N_option_map (Z.to_N (z mod 256))) as H.
    rewrite E in H. simpl in H.
    destruct (N.leb_spec (Z.to_N (z mod 256)) 255); [discriminate | lia].
Qed.

Lemma to_uint8_inj (a b : byte) : to_uint8 a = to_uint8 b -> a = b.
Proof.
  unfold to_uint8. intros H. apply N2Z.inj in H.
  pose proof (Byte.of_to_N a) as Ha. rewrite H, Byte.of_to_N in Ha.
  congruence.
Qed.

Lemma byte_of_Z_mod (z : Z) : byte_of_Z (z mod 256) = byte_of_Z z.
Proof.
  apply to_uint8_inj. rewrite !to_uint8_byte_of_Z.
  apply Z.mod_mod. lia.
Qed.

Lemma length_object_bytes (n : nat) (v : Z) : length (object_bytes n v) = n.
Proof.
  revert v. induction n as [|n IH]; intros v; simpl; [reflexivity|].
  now rewrite IH.
Qed.

(** Only the low [8 * n] bits of a value reach its [n]-byte
    representation. *)
Lemma object_bytes_mod (n : nat) (v : Z) :
  object_bytes n (v mod 2 ^ (8 * Z.of_nat n)) = object_bytes n v.
Proof.
  revert v. induction n as [|n IH]; intros v; [reflexivity|].
  cbn [object_bytes].
  replace (8 * Z.of_nat (S n)) with (8 + 8 * Z.of_nat n) by lia.
  rewrite Z.pow_add_r by lia. change (2 ^ 8) with 256.
  assert (Hp : 0 < 2 ^ (8 * Z.of_nat n)) by (apply Z.pow_pos_nonneg; lia).
  f_equal.
  - rewrite <- (byte_of_Z_mod v), <- (byte_of_Z_mod (v mod _)).
    f_equal. rewrite Z.rem_mul_r by lia.
    rewrite Z.mul_comm, Z.mod_add by lia. apply Z.mod_mod. lia.
  - rewrite !Z.shiftr_div_pow2 by lia. change (2 ^ 8) with 256.
    rewrite <- (IH (v / 256)). f_equal.
    rewrite Z.rem_mul_r by lia.
    rewrite (Z.mul_comm 256), Z.div_add by lia.
    rewrite (Z.div_small (v mod 256)) by (apply Z.mod_pos_bound; lia).
    reflexivity.
Qed.

Lemma object_bytes_wrap32 (v : Z) : object_bytes 4 (wrap32 v) = object_bytes 4 v.
Proof. exact (object_bytes_mod 4 v). Qed.

Lemma object_bytes_wrap64 (v : Z) : object_bytes 8 (wrap64 v) = object_bytes 8 v.
Proof. exact (object_bytes_mod 8 v). Qed.

(** ** Floating-point classification *)

Lemma isnan_not_eq_zero (t : float_type) (bits : Z) :
  isnan t bits = true -> eq_zero t bits = false.
Proof.
  unfold isnan, eq_zero. intros H.
  apply andb_true_iff in H as [He _]. apply Z.eqb_eq in He.
  rewrite He. destruct t; reflexivity.
Qed.

Lemma eq_zero_positive_zero (t : float_type) : eq_zero t (positive_zero t) = true.
Proof. destruct t; reflexivity. Qed.

Lemma eq_zero_negative_zero (t : float_type) : eq_zero t (negative_zero t) = true.
Proof. destruct t; reflexivity. Qed.

Lemma isnan_positive_zero (t : float_type) : isnan t (positive_zero t) = false.
Proof. destruct t; reflexivity. Qed.

Lemma isnan_negative_zero (t : float_type) : isnan t (negative_zero t) = false.
Proof. destruct t; reflexivity. Qed.

(** The generic floating-point wrapper hashes the bytes of the normalized
    key, although it tests for zero before it tests for NaN. *)
Lemma compute_floating_point_normalize (seed : Z) (t : float_type) (key : Z) :
  MurmurHash3_32.compute_floating_point seed t key
  = MurmurHash3_32.compute seed (float_sizeof t) (normalize_nans_and_zeros t key).
Proof.
  unfold MurmurHash3_32.compute_floating_point, normalize_nans_and_zeros.
  destruct (isnan t key) eqn:Hn.
  - now rewrite (isnan_not_eq_zero _ _ Hn).
  - destruct (eq_zero t key); reflexivity.
Qed.

(** ** The two byte hashes on spans without tail bytes *)

Lemma fmix32_shared : MurmurHash3_32.fmix32 = SparkMurmurHash3_32.fmix32.
Proof.
  unfold MurmurHash3_32.fmix32, SparkMurmurHash3_32.fmix32. reflexivity.
Qed.

Lemma block_body_shared :
  MurmurHash3_32.block_body = SparkMurmurHash3_32.block_body.
Proof.
  unfold MurmurHash3_32.block_body, SparkMurmurHash3_32.block_body,
    MurmurHash3_32.getblock32, SparkMurmurHash3_32.getblock32,
    MurmurHash3_32.rotl32, SparkMurmurHash3_32.rotl32,
    MurmurHash3_32.c1, MurmurHash3_32.c2, MurmurHash3_32.c3,
    SparkMurmurHash3_32.c1, SparkMurmurHash3_32.c2, SparkMurmurHash3_32.c3,
    MurmurHash3_32.rot_c1, MurmurHash3_32.rot_c2,
    SparkMurmurHash3_32.rot_c1, SparkMurmurHash3_32.rot_c2,
    MurmurHash3_32.BLOCK_SIZE, SparkMurmurHash3_32.BLOCK_SIZE.
  reflexivity.
Qed.

Lemma compute_bytes_no_tail (seed : Z) (data : list byte) (len : Z) :
  Z.rem len 4 = 0 ->
  MurmurHash3_32.compute_bytes seed data len
  = SparkMurmurHash3_32.compute_bytes seed data len.
Proof.
  intros Hr.
  unfold MurmurHash3_32.compute_bytes, SparkMurmurHash3_32.compute_bytes.
  cbv zeta.
  unfold MurmurHash3_32.tail_switch. cbv zeta. rewrite Hr. cbn [Z.eqb orb].
  unfold MurmurHash3_32.BLOCK_SIZE, SparkMurmurHash3_32.BLOCK_SIZE.
  assert (Hlen : len - Z.quot len 4 * 4 = 0).
  { pose proof (Z.quot_rem' len 4). lia. }
  unfold for_range. rewrite Hlen. cbn [Z.to_nat for_loop].
  rewrite fmix32_shared, block_body_shared. reflexivity.
Qed.

(** ** Keys and their canonical bytes *)

Lemma call_canonical_bytes (seed : Z) (key : Key) (bs : list byte) :
  Reference.canonical_bytes key = Some bs ->
  MurmurHash3_32.call seed key
  = Value (MurmurHash3_32.compute_bytes seed bs (Z.of_nat (length bs))).
Proof.
  destruct key as [b|t v|t bits|data|v|v|v|l|s]; cbn [Reference.canonical_bytes];
    intros H; inversion H; subst; clear H; cbn [MurmurHash3_32.call];
    try rewrite compute_floating_point_normalize;
    unfold MurmurHash3_32.compute; rewrite ?length_object_bytes;
    try reflexivity.
  destruct b; reflexivity.
Qed.

(** C1: whatever the seed, each of the three functors stops with the
    Unsupported-Key-Type fault on a list key and on a struct key; the
    outcome is the same at every call and is never a hash value. *)
Theorem nested_key_is_unsupported (seed : Z) (l : list_view) (s : struct_view) :
  (MurmurHash3_32.call seed (KList l) = Fault UnsupportedKeyType
   /\ MurmurHash3_32.call seed (KStruct s) = Fault UnsupportedKeyType)
  /\ (SparkMurmurHash3_32.call seed (KList l) = Fault UnsupportedKeyType
      /\ SparkMurmurHash3_32.call seed (KStruct s) = Fault UnsupportedKeyType)
  /\ (IdentityHash.call seed (KList l) = Some (Fault UnsupportedKeyType)
      /\ IdentityHash.call seed (KStruct s) = Some (Fault UnsupportedKeyType))
  /\ (forall h : Z,
         MurmurHash3_32.call seed (KList l) <> Value h
         /\ MurmurHash3_32.call seed (KStruct s) <> Value h
         /\ SparkMurmurHash3_32.call seed (KList l) <> Value h
         /\ SparkMurmurHash3_32.call seed (KStruct s) <> Value h
         /\ IdentityHash.call seed (KList l) <> Some (Value h)
         /\ IdentityHash.call seed (KStruct s) <> Some (Value h)).
Proof.
  repeat split; try reflexivity; cbn; discriminate.
Qed.

(** C2, as the code has it: for every seed and both widths the generic hash
    gives +0.0 and -0.0 the same value, that of the bytes of +0.0; the
    reference-engine-compatible hash normalizes no zero and hashes the
    bytes of each zero's own bit pattern. *)
Theorem signed_zero_hashing (seed : Z) (t : float_type) :
  MurmurHash3_32.call seed (KFloating t (negative_zero t))
  = MurmurHash3_32.call seed (KFloating t (positive_zero t))
  /\ MurmurHash3_32.call seed (KFloating t (negative_zero t))
     = Value (MurmurHash3_32.compute seed (float_sizeof t) (positive_zero t))
  /\ SparkMurmurHash3_32.call seed (KFloating t (positive_zero t))
     = Value (SparkMurmurHash3_32.compute seed (float_sizeof t) (positive_zero t))
  /\ SparkMurmurHash3_32.call seed (KFloating t (negative_zero t))
     = Value (SparkMurmurHash3_32.compute seed (float_sizeof t) (negative_zero t)).
Proof.
  cbn [MurmurHash3_32.call SparkMurmurHash3_32.call].
  unfold MurmurHash3_32.compute_floating_point,
    SparkMurmurHash3_32.compute_floating_point.
  rewrite eq_zero_positive_zero, eq_zero_negative_zero,
    isnan_positive_zero, isnan_negative_zero.
  repeat split.
Qed.

(** C2 as stated fails on the reference-engine-compatible hash: with seed 0
    the 32-bit zeros +0.0 and -0.0 get different hash values. *)
Lemma spark_signed_zeros_differ :
  SparkMurmurHash3_32.call 0 (KFloating Float32 (positive_zero Float32))
  <> SparkMurmurHash3_32.call 0 (KFloating Float32 (negative_zero Float32)).
Proof.
  vm_compute. discriminate.
Qed.

(** C7: for both block-mixing hashes, every seed and both widths, two bit
    patterns that encode NaN hash to the same value, the hash of the bytes
    of the canonical quiet NaN. *)
Theorem nan_hashing (seed : Z) (t : float_type) (p q : Z) :
  isnan t p = true -> isnan t q = true ->
  (MurmurHash3_32.call seed (KFloating t p)
   = MurmurHash3_32.call seed (KFloating t q)
   /\ MurmurHash3_32.call seed (KFloating t p)
      = Value (MurmurHash3_32.compute seed (float_sizeof t) (quiet_NaN t)))
  /\ (SparkMurmurHash3_32.call seed (KFloating t p)
      = SparkMurmurHash3_32.call seed (KFloating t q)
      /\ SparkMurmurHash3_32.call seed (KFloating t p)
         = Value (SparkMurmurHash3_32.compute seed (float_sizeof t) (quiet_NaN t))).
Proof.
  intros Hp Hq.
  cbn [MurmurHash3_32.call SparkMurmurHash3_32.call].
  unfold MurmurHash3_32.compute_floating_point,
    SparkMurmurHash3_32.compute_floating_point.
  rewrite (isnan_not_eq_zero _ _ Hp), (isnan_not_eq_zero _ _ Hq), Hp, Hq.
  repeat split.
Qed.

Lemma nan_hashing_witness :
  isnan Float32 0x7f800001 = true /\ isnan Float32 0xffc12345 = true
  /\ MurmurHash3_32.call 7 (KFloating Float32 0x7f800001)
     = MurmurHash3_32.call 7 (KFloating Float32 0xffc12345)
  /\ SparkMurmurHash3_32.call 7 (KFloating Float32 0x7f800001)
     = SparkMurmurHash3_32.call 7 (KFloating Float32 0xffc12345).
Proof.
  split; [reflexivity | split; [reflexivity |]].
  destruct (nan_hashing 7 Float32 0x7f800001 0xffc12345 eq_refl eq_refl)
    as [[Hg _] [Hs _]].
  split; [exact Hg | exact Hs].
Defined.

(** C10: on a span whose length is a multiple of four the generic
    [compute_bytes] and the reference-engine-compatible [compute_bytes]
    return the same value, for every seed. *)
Theorem compute_bytes_agree_without_tail (seed : Z) (data : list byte) :
  Z.of_nat (length data) mod 4 = 0 ->
  MurmurHash3_32.compute_bytes seed data (Z.of_nat (length data))
  = SparkMurmurHash3_32.compute_bytes seed data (Z.of_nat (length data)).
Proof.
  intros H. apply compute_bytes_no_tail.
  rewrite Z.rem_mod_nonneg by lia. exact H.
Qed.

Lemma compute_bytes_agree_without_tail_witness :
  Z.of_nat (length [x61; x62; x63; x64; x65; x66; x67; x68]) mod 4 = 0
  /\ MurmurHash3_32.compute_bytes 42 [x61; x62; x63; x64; x65; x66; x67; x68] 8
     = SparkMurmurHash3_32.compute_bytes 42 [x61; x62; x63; x64; x65; x66; x67; x68] 8.
Proof.
  split; [reflexivity |].
  exact (compute_bytes_agree_without_tail 42
           [x61; x62; x63; x64; x65; x66; x67; x68] eq_refl).
Defined.

(** C8: in the reference-engine-compatible hash, for every seed, a boolean,
    8-bit or 16-bit integer key hashes as the four bytes of the same value
    (the hash of the 32-bit integer key of that value), and a 32-bit and a
    64-bit decimal key hash as the eight bytes of their unscaled value, so
    the two agree on equal unscaled values; the promoted hash is not the
    hash of the native-width bytes. *)
Theorem spark_width_promotion (seed : Z) :
  (forall b : bool,
      SparkMurmurHash3_32.call seed (KBool b)
      = Value (SparkMurmurHash3_32.compute_bytes seed
                 (object_bytes 4 (if b then 1 else 0)) 4)
      /\ SparkMurmurHash3_32.call seed (KBool b)
         = SparkMurmurHash3_32.call seed (KInt Int32 (if b then 1 else 0)))
  /\ (forall v : Z,
         let promoted :=
           Value (SparkMurmurHash3_32.compute_bytes seed (object_bytes 4 v) 4) in
         SparkMurmurHash3_32.call seed (KInt Int8 v) = promoted
         /\ SparkMurmurHash3_32.call seed (KInt UInt8 v) = promoted
         /\ SparkMurmurHash3_32.call seed (KInt Int16 v) = promoted
         /\ SparkMurmurHash3_32.call seed (KInt UInt16 v) = promoted
         /\ SparkMurmurHash3_32.call seed (KInt Int32 v) = promoted)
  /\ (forall v : Z,
         SparkMurmurHash3_32.call seed (KDecimal32 v)
         = Value (SparkMurmurHash3_32.compute_bytes seed (object_bytes 8 v) 8)
         /\ SparkMurmurHash3_32.call seed (KDecimal32 v)
            = SparkMurmurHash3_32.call seed (KDecimal64 v))
  /\ SparkMurmurHash3_32.call 0 (KInt Int8 1)
     <> Value (SparkMurmurHash3_32.compute_bytes 0
                 (object_bytes (int_sizeof Int8) 1) (Z.of_nat (int_sizeof Int8))).
Proof.
  split; [| split; [| split]].
  - intros b. cbn [SparkMurmurHash3_32.call int_sizeof].
    unfold SparkMurmurHash3_32.compute. rewrite object_bytes_wrap32.
    split; reflexivity.
  - intros v promoted. subst promoted.
    cbn [SparkMurmurHash3_32.call int_sizeof].
    unfold SparkMurmurHash3_32.compute. rewrite object_bytes_wrap32.
    repeat split.
  - intros v. cbn [SparkMurmurHash3_32.call].
    unfold SparkMurmurHash3_32.compute. rewrite object_bytes_wrap64.
    split; reflexivity.
  - vm_compute. discriminate.
Qed.

(** C9, as the code has it: for every seed, two keys with the same
    canonical bytes get the same value from the generic hash; the 32-bit
    integer 1065353216 and the 32-bit float of the same bit pattern (1.0,
    which canonicalization leaves as it is) are such a pair. *)
Theorem same_bytes_same_hash (seed : Z) :
  (forall (k1 k2 : Key) (bs : list byte),
      Reference.canonical_bytes k1 = Some bs ->
      Reference.canonical_bytes k2 = Some bs ->
      MurmurHash3_32.call seed k1 = MurmurHash3_32.call seed k2)
  /\ normalize_nans_and_zeros Float32 1065353216 = 1065353216
  /\ Reference.canonical_bytes (KInt Int32 1065353216)
     = Reference.canonical_bytes (KFloating Float32 1065353216)
  /\ MurmurHash3_32.call seed (KInt Int32 1065353216)
     = MurmurHash3_32.call seed (KFloating Float32 1065353216).
Proof.
  assert (Hgen : forall k1 k2 bs,
             Reference.canonical_bytes k1 = Some bs ->
             Reference.canonical_bytes k2 = Some bs ->
             MurmurHash3_32.call seed k1 = MurmurHash3_32.call seed k2).
  { intros k1 k2 bs H1 H2.
    rewrite (call_canonical_bytes seed k1 bs H1).
    rewrite (call_canonical_bytes seed k2 bs H2).
    reflexivity. }
  split; [exact Hgen |].
  split; [reflexivity |].
  split; [reflexivity |].
  apply (Hgen _ _ (object_bytes 4 1065353216)); reflexivity.
Qed.

Lemma same_bytes_same_hash_witness :
  Reference.canonical_bytes (KString [x00; x00; x80; x3f])
  = Some [x00; x00; x80; x3f]
  /\ Reference.canonical_bytes (KFloating Float32 1065353216)
     = Some [x00; x00; x80; x3f]
  /\ MurmurHash3_32.call 5 (KString [x00; x00; x80; x3f])
     = MurmurHash3_32.call 5 (KFloating Float32 1065353216).
Proof.
  split; [reflexivity | split; [reflexivity |]].
  exact (proj1 (same_bytes_same_hash 5)
           (KString [x00; x00; x80; x3f]) (KFloating Float32 1065353216)
           [x00; x00; x80; x3f] eq_refl eq_refl).
Defined.

(** C9 as stated, for every hash functor, fails outside the generic hash:
    the integer 1065353216 and the float 1.0 have the same canonical bytes
    and different identity hashes (1065353216 and 1), and the 32-bit zeros
    +0.0 and -0.0 have the same canonical bytes and different
    reference-engine-compatible hashes with seed 0. *)
Lemma same_bytes_different_hash :
  (Reference.canonical_bytes (KInt Int32 1065353216)
   = Reference.canonical_bytes (KFloating Float32 1065353216)
   /\ IdentityHash.call 0 (KInt Int32 1065353216) = Some (Value 1065353216)
   /\ IdentityHash.call 0 (KFloating Float32 1065353216) = Some (Value 1)
   /\ IdentityHash.call 0 (KInt Int32 1065353216)
      <> IdentityHash.call 0 (KFloating Float32 1065353216))
  /\ (Reference.canonical_bytes (KFloating Float32 (positive_zero Float32))
      = Reference.canonical_bytes (KFloating Float32 (negative_zero Float32))
      /\ SparkMurmurHash3_32.call 0 (KFloating Float32 (positive_zero Float32))
         <> SparkMurmurHash3_32.call 0 (KFloating Float32 (negative_zero Float32))).
Proof.
  split.
  - split; [reflexivity | split; [reflexivity | split; [reflexivity |]]].
    vm_compute. discriminate.
  - split; [reflexivity |].
    vm_compute. discriminate.
Qed.

(** C3, as the code has it: the identity hash converts the key's value to
    the 32-bit result type and applies no mixing, whatever the seed.  For a
    boolean or integer key that is the two's-complement bit pattern of the
    value at 32 bits; for a floating-point key it is the value truncated
    toward zero, when that is a 32-bit unsigned number. *)
Theorem identity_hash_converts_value (seed : Z) :
  (forall b : bool,
      IdentityHash.call seed (KBool b) = Some (Value (if b then 1 else 0)))
  /\ (forall (t : int_type) (v : Z),
         IdentityHash.call seed (KInt t v) = Some (Value (wrap32 v)))
  /\ (forall key : Key,
         match key with KBool _ | KInt _ _ => True | _ => False end ->
         IdentityHash.call seed key
         = option_map Value (Reference.bit_pattern32 key))
  /\ (forall (t : float_type) (bits z : Z),
         IdentityHash.float_truncate t bits = Some z ->
         0 <= z < 2 ^ 32 ->
         IdentityHash.call seed (KFloating t bits) = Some (Value z)).
Proof.
  split; [| split; [| split]].
  - intros b. reflexivity.
  - intros t v. reflexivity.
  - intros key Hk. destruct key; try contradiction; reflexivity.
  - intros t bits z Hz Hr.
    unfold IdentityHash.call. cbn [IdentityHash.is_arithmetic].
    unfold IdentityHash.static_cast_result_type. rewrite Hz.
    destruct (Z.leb_spec 0 z); [| lia].
    destruct (Z.ltb_spec z (2 ^ 32)); [| lia].
    reflexivity.
Qed.

Lemma identity_hash_converts_value_witness :
  IdentityHash.float_truncate Float64 0x4059000000000000 = Some 100
  /\ 0 <= 100 < 2 ^ 32
  /\ IdentityHash.call 3 (KFloating Float64 0x4059000000000000) = Some (Value 100)
  /\ IdentityHash.call 3 (KInt Int8 (-1)) = Some (Value 0xffffffff).
Proof.
  split; [reflexivity | split; [lia | split]].
  - apply (proj2 (proj2 (proj2 (identity_hash_converts_value 3)))).
    + reflexivity.
    + lia.
  - exact (proj1 (proj2 (proj2 (identity_hash_converts_value 3)))
             (KInt Int8 (-1)) I).
Defined.

(** C3 as stated fails on a floating-point key: the identity hash of the
    32-bit float 1.0 is 1, not its bit pattern 1065353216. *)
Lemma identity_hash_float_not_bit_pattern :
  Reference.bit_pattern32 (KFloating Float32 1065353216) = Some 1065353216
  /\ IdentityHash.call 0 (KFloating Float32 1065353216) = Some (Value 1)
  /\ IdentityHash.call 0 (KFloating Float32 1065353216)
     <> option_map Value (Reference.bit_pattern32 (KFloating Float32 1065353216)).
Proof.
  split; [reflexivity | split; [reflexivity |]].
  vm_compute. discriminate.
Qed.

(** ** Word arithmetic *)

Lemma wrap32_is_uint32 (x : Z) : is_uint32 (wrap32 x).
Proof. unfold is_uint32, wrap32. apply Z.mod_pos_bound. lia. Qed.

Lemma wrap32_small (x : Z) : is_uint32 x -> wrap32 x = x.
Proof. unfold is_uint32, wrap32. intros H. apply Z.mod_small. exact H. Qed.

Lemma mul32_is_uint32 (a b : Z) : is_uint32 (mul32 a b).
Proof. apply wrap32_is_uint32. Qed.

Lemma add32_is_uint32 (a b : Z) : is_uint32 (add32 a b).
Proof. apply wrap32_is_uint32. Qed.

(** Bits of [a] below position [n] and bits of [b * 2 ^ n] never meet. *)
Lemma land_low_high (a b n : Z) :
  0 <= n -> 0 <= a < 2 ^ n -> Z.land a (b * 2 ^ n) = 0.
Proof.
  intros Hn Ha. apply Z.bits_inj'. intros m Hm.
  rewrite Z.land_spec, Z.bits_0.
  destruct (Z.lt_ge_cases m n) as [Hlt | Hge].
  - rewrite Z.mul_pow2_bits_low by exact Hlt. apply andb_false_r.
  - rewrite <- (Z.mod_small a (2 ^ n)) by exact Ha.
    rewrite Z.mod_pow2_bits_high by lia. reflexivity.
Qed.

Lemma lor_low_high (a b n : Z) :
  0 <= n -> 0 <= a < 2 ^ n -> Z.lor a (b * 2 ^ n) = a + b * 2 ^ n.
Proof.
  intros Hn Ha.
  rewrite <- (Z.add_lor_land a (b * 2 ^ n)), (land_low_high a b n Hn Ha).
  lia.
Qed.

Lemma lxor_low_high (a b n : Z) :
  0 <= n -> 0 <= a < 2 ^ n -> Z.lxor a (b * 2 ^ n) = a + b * 2 ^ n.
Proof.
  intros Hn Ha. symmetry. apply Z.add_nocarry_lxor.
  apply land_low_high; assumption.
Qed.

Lemma lxor_is_uint32 (a b : Z) :
  is_uint32 a -> is_uint32 b -> is_uint32 (Z.lxor a b).
Proof.
  unfold is_uint32. intros Ha Hb.
  assert (H0 : 0 <= Z.lxor a b) by (apply Z.lxor_nonneg; lia).
  split; [exact H0 |].
  destruct (Z.eq_dec (Z.lxor a b) 0) as [E | E]; [rewrite E; lia |].
  apply Z.log2_lt_pow2; [lia |].
  eapply Z.le_lt_trans; [apply Z.log2_lxor; lia |].
  apply Z.max_lub_lt.
  - destruct (Z.eq_dec a 0) as [-> | Hna]; [reflexivity |].
    apply Z.log2_lt_pow2; lia.
  - destruct (Z.eq_dec b 0) as [-> | Hnb]; [reflexivity |].
    apply Z.log2_lt_pow2; lia.
Qed.

(** The funnel shift of the source is the rotation of the specification
    on a 32-bit word, for a rotation count a block hash uses. *)
Lemma rotl32_rotate_left (x r : Z) :
  is_uint32 x -> 0 < r < 32 ->
  MurmurHash3_32.rotl32 x r = Reference.rotate_left x r.
Proof.
  unfold is_uint32. intros Hx Hr.
  unfold MurmurHash3_32.rotl32, Reference.rotate_left. cbv zeta.
  assert (Hs : Z.land r 31 = r).
  { change 31 with (Z.ones 5). rewrite Z.land_ones by lia.
    apply Z.mod_small. change (2 ^ 5) with 32. lia. }
  rewrite Hs, Z.shiftl_mul_pow2, Z.shiftr_div_pow2 by lia.
  assert (Hp : 0 < 2 ^ r) by (apply Z.pow_pos_nonneg; lia).
  assert (Hq : 0 < 2 ^ (32 - r)) by (apply Z.pow_pos_nonneg; lia).
  assert (Hpq : 2 ^ 32 = 2 ^ (32 - r) * 2 ^ r).
  { rewrite <- Z.pow_add_r by lia. f_equal. lia. }
  assert (Hhi : 0 <= x / 2 ^ (32 - r) < 2 ^ r).
  { split; [apply Z.div_pos; lia |].
    apply Z.div_lt_upper_bound; [lia |]. rewrite <- Hpq. lia. }
  rewrite Z.lor_comm, lor_low_high by (lia || exact Hhi).
  unfold wrap32.
  rewrite Hpq at 1. rewrite Hpq at 1.
  rewrite !Z.mul_mod_distr_r by lia.
  assert (Hm : 0 <= x mod 2 ^ (32 - r) < 2 ^ (32 - r))
    by (apply Z.mod_pos_bound; lia).
  rewrite <- Z.mul_mod_distr_r by lia.
  rewrite <- Z.add_mod_idemp_r by lia.
  rewrite Z.mul_mod_distr_r by lia.
  rewrite Z.mod_small by nia.
  lia.
Qed.

Lemma spark_rotl32 : SparkMurmurHash3_32.rotl32 = MurmurHash3_32.rotl32.
Proof.
  unfold SparkMurmurHash3_32.rotl32, MurmurHash3_32.rotl32. reflexivity.
Qed.

Lemma fmix32_avalanche (h : Z) : MurmurHash3_32.fmix32 h = Reference.avalanche h.
Proof.
  unfold MurmurHash3_32.fmix32, Reference.avalanche. cbv zeta.
  rewrite !Z.shiftr_div_pow2 by lia. reflexivity.
Qed.

(** ** The mixing steps *)

Lemma mix_k1_source (k1 : Z) :
  mul32 (MurmurHash3_32.rotl32 (mul32 k1 MurmurHash3_32.c1) MurmurHash3_32.rot_c1)
        MurmurHash3_32.c2
  = Reference.mix_k1 k1.
Proof.
  unfold Reference.mix_k1, MurmurHash3_32.c1, MurmurHash3_32.c2,
    MurmurHash3_32.rot_c1.
  rewrite rotl32_rotate_left by (apply mul32_is_uint32 || lia).
  reflexivity.
Qed.

Lemma mix_k1_is_uint32 (k1 : Z) : is_uint32 (Reference.mix_k1 k1).
Proof. apply mul32_is_uint32. Qed.

Lemma mix_h1_is_uint32 (h1 k1 : Z) : is_uint32 (Reference.mix_h1 h1 k1).
Proof. apply add32_is_uint32. Qed.

Lemma mix_h1_source (h1 k1 : Z) :
  is_uint32 h1 ->
  add32 (mul32 (MurmurHash3_32.rotl32
                  (Z.lxor h1 (mul32 (MurmurHash3_32.rotl32
                                       (mul32 k1 MurmurHash3_32.c1)
                                       MurmurHash3_32.rot_c1)
                                    MurmurHash3_32.c2))
                  MurmurHash3_32.rot_c2) 5) MurmurHash3_32.c3
  = Reference.mix_h1 h1 k1.
Proof.
  intros Hh. rewrite mix_k1_source.
  unfold Reference.mix_h1, MurmurHash3_32.c3, MurmurHash3_32.rot_c2.
  rewrite rotl32_rotate_left;
    [reflexivity | apply lxor_is_uint32; [exact Hh | apply mix_k1_is_uint32] | lia].
Qed.

(** ** Reading the span *)

Lemma at_offset_cons (b : byte) (data : list byte) (i : Z) :
  0 <= i -> at_offset (b :: data) (i + 1) = at_offset data i.
Proof.
  intros Hi. unfold at_offset.
  replace (Z.to_nat (i + 1)) with (S (Z.to_nat i)) by lia.
  reflexivity.
Qed.

Lemma at_offset_skip4 (b0 b1 b2 b3 : byte) (rest : list byte) (i : Z) :
  0 <= i -> at_offset (b0 :: b1 :: b2 :: b3 :: rest) (i + 4) = at_offset rest i.
Proof.
  intros Hi. unfold at_offset.
  replace (Z.to_nat (i + 4)) with (S (S (S (S (Z.to_nat i))))) by lia.
  reflexivity.
Qed.

Lemma at_offset_nth (data : list byte) (j : nat) :
  at_offset data (Z.of_nat j) = nth j data x00.
Proof. unfold at_offset. now rewrite Nat2Z.id. Qed.

Lemma little_endian_4 (b0 b1 b2 b3 : byte) :
  wrap32 (Z.lor (Z.lor (Z.lor (to_uint8 b0) (Z.shiftl (to_uint8 b1) 8))
                       (Z.shiftl (to_uint8 b2) 16))
                (Z.shiftl (to_uint8 b3) 24))
  = Reference.little_endian [b0; b1; b2; b3].
Proof.
  pose proof (to_uint8_range b0). pose proof (to_uint8_range b1).
  pose proof (to_uint8_range b2). pose proof (to_uint8_range b3).
  rewrite !Z.shiftl_mul_pow2 by lia.
  rewrite (lor_low_high (to_uint8 b0)) by lia.
  rewrite (lor_low_high (to_uint8 b0 + _)) by lia.
  rewrite (lor_low_high (to_uint8 b0 + _ + _)) by lia.
  cbn [Reference.little_endian].
  rewrite wrap32_small by (unfold is_uint32; lia).
  lia.
Qed.

Lemma getblock32_head (b0 b1 b2 b3 : byte) (rest : list byte) :
  MurmurHash3_32.getblock32 (b0 :: b1 :: b2 :: b3 :: rest) 0
  = Reference.little_endian [b0; b1; b2; b3].
Proof.
  unfold MurmurHash3_32.getblock32. cbv zeta.
  rewrite <- little_endian_4. reflexivity.
Qed.

Lemma getblock32_skip4 (b0 b1 b2 b3 : byte) (rest : list byte) (offset : Z) :
  0 <= offset ->
  MurmurHash3_32.getblock32 (b0 :: b1 :: b2 :: b3 :: rest) (offset + 4)
  = MurmurHash3_32.getblock32 rest offset.
Proof.
  intros Ho. unfold MurmurHash3_32.getblock32. cbv zeta.
  replace (offset + 4 + 0) with (offset + 0 + 4) by lia.
  replace (offset + 4 + 1) with (offset + 1 + 4) by lia.
  replace (offset + 4 + 2) with (offset + 2 + 4) by lia.
  replace (offset + 4 + 3) with (offset + 3 + 4) by lia.
  rewrite !at_offset_skip4 by lia. reflexivity.
Qed.

Lemma block_body_head (b0 b1 b2 b3 : byte) (rest : list byte) (h1 : Z) :
  is_uint32 h1 ->
  MurmurHash3_32.block_body (b0 :: b1 :: b2 :: b3 :: rest) 0 h1
  = Reference.mix_h1 h1 (Reference.little_endian [b0; b1; b2; b3]).
Proof.
  intros Hh. unfold MurmurHash3_32.block_body. cbv zeta.
  change (0 * MurmurHash3_32.BLOCK_SIZE) with 0.
  rewrite getblock32_head. apply mix_h1_source. exact Hh.
Qed.

Lemma block_body_skip4 (b0 b1 b2 b3 : byte) (rest : list byte) (i h1 : Z) :
  0 <= i ->
  MurmurHash3_32.block_body (b0 :: b1 :: b2 :: b3 :: rest) (i + 1) h1
  = MurmurHash3_32.block_body rest i h1.
Proof.
  intros Hi. unfold MurmurHash3_32.block_body. cbv zeta.
  unfold MurmurHash3_32.BLOCK_SIZE.
  replace ((i + 1) * 4) with (i * 4 + 4) by lia.
  rewrite getblock32_skip4 by lia. reflexivity.
Qed.

(** ** The loops, by recursion on the span *)

(** Induction on a span four bytes at a time. *)
Lemma span_ind4 (P : list byte -> Prop) :
  (forall t, (length t < 4)%nat -> P t) ->
  (forall b0 b1 b2 b3 rest, P rest -> P (b0 :: b1 :: b2 :: b3 :: rest)) ->
  forall data, P data.
Proof.
  intros Hshort Hstep. fix IH 1.
  intros [| b0 [| b1 [| b2 [| b3 rest]]]].
  1-4: apply Hshort; simpl; lia.
  apply Hstep. apply IH.
Qed.

Lemma nblocks_of_short (t : list byte) : (length t < 4)%nat -> nblocks_of t = O.
Proof.
  intros H. unfold nblocks_of.
  rewrite Z.quot_small by lia. reflexivity.
Qed.

Lemma nblocks_of_step (b0 b1 b2 b3 : byte) (rest : list byte) :
  nblocks_of (b0 :: b1 :: b2 :: b3 :: rest) = S (nblocks_of rest).
Proof.
  unfold nblocks_of. cbn [length].
  replace (Z.of_nat (S (S (S (S (length rest))))))
    with (Z.of_nat (length rest) + 1 * 4) by lia.
  rewrite Z.quot_add by lia.
  pose proof (Z.quot_pos (Z.of_nat (length rest)) 4). lia.
Qed.

Lemma for_loop_block_body_skip4 (b0 b1 b2 b3 : byte) (rest : list byte) (n : nat) :
  forall i h1, 0 <= i ->
    for_loop n (i + 1) (MurmurHash3_32.block_body (b0 :: b1 :: b2 :: b3 :: rest)) h1
    = for_loop n i (MurmurHash3_32.block_body rest) h1.
Proof.
  induction n as [| n IH]; intros i h1 Hi; [reflexivity |].
  cbn [for_loop]. rewrite block_body_skip4 by exact Hi.
  apply IH. lia.
Qed.

Lemma block_loop_blocks (data : list byte) :
  forall h1, is_uint32 h1 ->
    for_loop (nblocks_of data) 0 (MurmurHash3_32.block_body data) h1
    = Reference.blocks h1 data.
Proof.
  induction data as [t Ht | b0 b1 b2 b3 rest IH] using span_ind4; intros h1 Hh.
  - rewrite nblocks_of_short by exact Ht.
    destruct t as [| ? [| ? [| ? [| ? ?]]]]; try reflexivity.
    simpl in Ht. lia.
  - rewrite nblocks_of_step. cbn [for_loop Reference.blocks].
    rewrite block_body_head by exact Hh.
    rewrite for_loop_block_body_skip4 by lia.
    apply IH. apply mix_h1_is_uint32.
Qed.

Lemma blocks_is_uint32 (data : list byte) :
  forall h1, is_uint32 h1 -> is_uint32 (Reference.blocks h1 data).
Proof.
  induction data as [t Ht | b0 b1 b2 b3 rest IH] using span_ind4; intros h1 Hh.
  - destruct t as [| ? [| ? [| ? [| ? ?]]]]; try exact Hh.
    simpl in Ht. lia.
  - cbn [Reference.blocks]. apply IH. apply mix_h1_is_uint32.
Qed.

(** ** The tail bytes *)

Lemma tail_short (data : list byte) : (length (Reference.tail data) < 4)%nat.
Proof.
  induction data as [t Ht | b0 b1 b2 b3 rest IH] using span_ind4.
  - destruct t as [| ? [| ? [| ? [| ? ?]]]]; simpl in *; lia.
  - exact IH.
Qed.

Lemma length_blocks_tail (data : list byte) :
  Z.of_nat (length data)
  = Z.of_nat (nblocks_of data) * 4 + Z.of_nat (length (Reference.tail data)).
Proof.
  induction data as [t Ht | b0 b1 b2 b3 rest IH] using span_ind4.
  - rewrite nblocks_of_short by exact Ht.
    destruct t as [| ? [| ? [| ? [| ? ?]]]]; simpl in *; lia.
  - rewrite nblocks_of_step. cbn [length Reference.tail]. lia.
Qed.

Lemma at_offset_tail (data : list byte) (j : Z) :
  0 <= j ->
  at_offset data (Z.of_nat (nblocks_of data) * 4 + j)
  = at_offset (Reference.tail data) j.
Proof.
  intros Hj.
  induction data as [t Ht | b0 b1 b2 b3 rest IH] using span_ind4.
  - rewrite nblocks_of_short by exact Ht.
    destruct t as [| ? [| ? [| ? [| ? ?]]]]; try reflexivity.
    simpl in Ht. lia.
  - rewrite nblocks_of_step. cbn [Reference.tail].
    replace (Z.of_nat (S (nblocks_of rest)) * 4 + j)
      with (Z.of_nat (nblocks_of rest) * 4 + j + 4) by lia.
    rewrite at_offset_skip4 by lia. exact IH.
Qed.

Lemma quot_length (data : list byte) :
  Z.quot (Z.of_nat (length data)) 4 = Z.of_nat (nblocks_of data).
Proof.
  unfold nblocks_of. rewrite Z2Nat.id; [reflexivity |].
  apply Z.quot_pos; lia.
Qed.

Lemma rem_length (data : list byte) :
  Z.rem (Z.of_nat (length data)) 4 = Z.of_nat (length (Reference.tail data)).
Proof.
  pose proof (Z.quot_rem' (Z.of_nat (length data)) 4) as H.
  rewrite quot_length in H.
  pose proof (length_blocks_tail data). lia.
Qed.

Lemma tail_word_2 (a b : byte) :
  Z.lxor (Z.lxor 0 (Z.shiftl (to_uint8 b) 8)) (to_uint8 a)
  = Reference.little_endian [a; b].
Proof.
  pose proof (to_uint8_range a). pose proof (to_uint8_range b).
  rewrite Z.lxor_0_l, Z.shiftl_mul_pow2, Z.lxor_comm by lia.
  rewrite lxor_low_high by lia.
  cbn [Reference.little_endian]. lia.
Qed.

Lemma tail_word_3 (a b c : byte) :
  Z.lxor (Z.lxor (Z.lxor 0 (Z.shiftl (to_uint8 c) 16)) (Z.shiftl (to_uint8 b) 8))
         (to_uint8 a)
  = Reference.little_endian [a; b; c].
Proof.
  pose proof (to_uint8_range a). pose proof (to_uint8_range b).
  pose proof (to_uint8_range c).
  rewrite Z.lxor_0_l, !Z.shiftl_mul_pow2 by lia.
  rewrite (Z.lxor_comm (to_uint8 c * 2 ^ 16)).
  replace (to_uint8 c * 2 ^ 16) with (to_uint8 c * 2 ^ 8 * 2 ^ 8) by lia.
  rewrite <- Z.shiftl_mul_pow2 by lia.
  rewrite <- Z.shiftl_mul_pow2 by lia.
  rewrite <- Z.shiftl_lxor.
  rewrite !Z.shiftl_mul_pow2 by lia.
  rewrite (Z.lxor_comm _ (to_uint8 a)).
  rewrite lxor_low_high by lia.
  rewrite (Z.lxor_comm (to_uint8 b)).
  rewrite Z.lxor_comm, lxor_low_high by lia.
  cbn [Reference.little_endian]. lia.
Qed.

Lemma tail_switch_tail (data : list byte) (h1 : Z) :
  MurmurHash3_32.tail_switch data (Z.of_nat (nblocks_of data) * 4)
                             (Z.of_nat (length data)) h1
  = match Reference.tail data with
    | [] => h1
    | t => Z.lxor h1 (Reference.mix_k1 (Reference.little_endian t))
    end.
Proof.
  unfold MurmurHash3_32.tail_switch. cbv zeta.
  rewrite rem_length, !at_offset_tail by lia.
  replace (at_offset data (Z.of_nat (nblocks_of data) * 4))
    with (at_offset (Reference.tail data) 0)
    by (rewrite <- at_offset_tail by lia; f_equal; lia).
  pose proof (tail_short data) as Hs.
  destruct (Reference.tail data) as [| a [| b [| c [| d t]]]].
  - reflexivity.
  - change (Z.of_nat (length [a]) =? 3) with false.
    change (Z.of_nat (length [a]) =? 2) with false.
    change (Z.of_nat (length [a]) =? 1) with true.
    cbn [orb]. change (at_offset [a] 0) with a.
    rewrite Z.lxor_0_l, mix_k1_source.
    cbn [Reference.little_endian]. do 2 f_equal. lia.
  - change (Z.of_nat (length [a; b]) =? 3) with false.
    change (Z.of_nat (length [a; b]) =? 2) with true.
    cbn [orb]. change (at_offset [a; b] 0) with a.
    change (at_offset [a; b] 1) with b.
    rewrite tail_word_2, mix_k1_source. reflexivity.
  - change (Z.of_nat (length [a; b; c]) =? 3) with true.
    cbn [orb]. change (at_offset [a; b; c] 0) with a.
    change (at_offset [a; b; c] 1) with b.
    change (at_offset [a; b; c] 2) with c.
    rewrite tail_word_3, mix_k1_source. reflexivity.
  - simpl in Hs. lia.
Qed.

Lemma sign_extend_source (b : byte) : wrap32 (to_int8 b) = Reference.sign_extend b.
Proof.
  unfold to_int8, Reference.sign_extend, wrap32. cbv zeta.
  pose proof (to_uint8_range b) as Hb.
  change (2 ^ 7) with 128.
  destruct (Z.ltb_spec (to_uint8 b) 128).
  - apply Z.mod_small. lia.
  - symmetry. apply (Z.mod_unique _ _ (-1)); lia.
Qed.

Lemma spark_tail_body (data : list byte) (i h1 : Z) :
  is_uint32 h1 ->
  SparkMurmurHash3_32.tail_body data i h1
  = Reference.spark_tail h1 (at_offset data i).
Proof.
  intros Hh. unfold SparkMurmurHash3_32.tail_body, Reference.spark_tail.
  cbv zeta. rewrite sign_extend_source, spark_rotl32.
  apply mix_h1_source. exact Hh.
Qed.

Lemma tail_loop_fold (data : list byte) (t : list byte) :
  forall i h1,
    0 <= i -> is_uint32 h1 ->
    (forall j, (j < length t)%nat -> at_offset data (i + Z.of_nat j) = nth j t x00) ->
    for_loop (length t) i (SparkMurmurHash3_32.tail_body data) h1
    = fold_left Reference.spark_tail t h1.
Proof.
  induction t as [| b t IH]; intros i h1 Hi Hh Hat; [reflexivity |].
  cbn [length for_loop fold_left].
  rewrite spark_tail_body by exact Hh.
  assert (Hb : at_offset data i = b).
  { rewrite <- (Z.add_0_r i). apply (Hat O). simpl. lia. }
  rewrite Hb. apply IH.
  - lia.
  - apply mix_h1_is_uint32.
  - intros j Hj.
    replace (i + 1 + Z.of_nat j) with (i + Z.of_nat (S j)) by lia.
    apply (Hat (S j)). simpl. lia.
Qed.

(** C5: for a 32-bit seed and any byte span, the generic [compute_bytes]
    is MurmurHash3 as the specification describes it: the little-endian
    blocks mixed into [h1], the tail bytes folded zero-extended into one
    word that is mixed and XORed in once, then the length and the
    avalanche mix. *)
Theorem compute_bytes_is_murmur3 (seed : Z) (data : list byte) :
  is_uint32 seed ->
  MurmurHash3_32.compute_bytes seed data (Z.of_nat (length data))
  = Reference.murmur3_32 seed data.
Proof.
  intros Hs.
  unfold MurmurHash3_32.compute_bytes, Reference.murmur3_32, Reference.finalize.
  cbv zeta. unfold MurmurHash3_32.BLOCK_SIZE, for_range.
  rewrite quot_length, Z.sub_0_r, Nat2Z.id.
  rewrite block_loop_blocks by exact Hs.
  rewrite tail_switch_tail, fmix32_avalanche.
  reflexivity.
Qed.

Lemma compute_bytes_is_murmur3_witness :
  is_uint32 1234
  /\ MurmurHash3_32.compute_bytes 1234 [x48; x65; x6c; x6c; x6f; x2c; x20] 7
     = Reference.murmur3_32 1234 [x48; x65; x6c; x6c; x6f; x2c; x20].
Proof.
  assert (H : is_uint32 1234) by (unfold is_uint32; lia).
  split; [exact H |].
  exact (compute_bytes_is_murmur3 1234 [x48; x65; x6c; x6c; x6f; x2c; x20] H).
Defined.

(** C6: for a 32-bit seed and any byte span, the reference-engine-compatible
    [compute_bytes] folds each tail byte in on its own: the byte is
    sign-extended from a signed 8-bit value to a 32-bit word, put through
    the [c1]/rotate-15/[c2] step and XORed into [h1] (which then takes the
    rotation and multiply-add that end a round); the tail is not batched
    into one zero-extended word as in the generic variant. *)
Theorem spark_compute_bytes_tail (seed : Z) (data : list byte) :
  is_uint32 seed ->
  SparkMurmurHash3_32.compute_bytes seed data (Z.of_nat (length data))
  = Reference.spark_murmur3_32 seed data.
Proof.
  intros Hs.
  unfold SparkMurmurHash3_32.compute_bytes, Reference.spark_murmur3_32,
    Reference.finalize.
  cbv zeta. unfold SparkMurmurHash3_32.BLOCK_SIZE, for_range.
  rewrite quot_length, Z.sub_0_r, Nat2Z.id.
  rewrite <- block_body_shared, <- fmix32_shared.
  rewrite block_loop_blocks by exact Hs.
  replace (Z.to_nat (Z.of_nat (length data) - Z.of_nat (nblocks_of data) * 4))
    with (length (Reference.tail data))
    by (pose proof (length_blocks_tail data); lia).
  rewrite (tail_loop_fold data (Reference.tail data)).
  - rewrite fmix32_avalanche. reflexivity.
  - lia.
  - apply blocks_is_uint32. exact Hs.
  - intros j _. rewrite at_offset_tail by lia. apply at_offset_nth.
Qed.

Lemma spark_compute_bytes_tail_witness :
  is_uint32 42
  /\ SparkMurmurHash3_32.compute_bytes 42 [x61; x62; x63; x64; xe9; x80] 6
     = Reference.spark_murmur3_32 42 [x61; x62; x63; x64; xe9; x80].
Proof.
  assert (H : is_uint32 42) by (unfold is_uint32; lia).
  split; [exact H |].
  exact (spark_compute_bytes_tail 42 [x61; x62; x63; x64; xe9; x80] H).
Defined.

(** ** The decimal encoder *)

Lemma pow256_pos (n : nat) : 0 < pow256 n.
Proof. unfold pow256. apply Z.pow_pos_nonneg; lia. Qed.

Lemma pow256_S (n : nat) : pow256 (S n) = 256 * pow256 n.
Proof.
  unfold pow256. rewrite Nat2Z.inj_succ, Z.pow_succ_r by lia. reflexivity.
Qed.

Lemma pow256_le (n m : nat) : (n <= m)%nat -> pow256 n <= pow256 m.
Proof.
  unfold pow256. intros H. apply Z.pow_le_mono_r; lia.
Qed.

Lemma shiftr_bytes (v : Z) (n : nat) :
  Z.shiftr v (8 * Z.of_nat n) = v / pow256 n.
Proof.
  rewrite Z.shiftr_div_pow2 by lia. unfold pow256.
  rewrite Z.pow_mul_r by lia. reflexivity.
Qed.

Lemma object_bytes_snoc (n : nat) :
  forall v, object_bytes (S n) v
            = object_bytes n v ++ [byte_of_Z (Z.shiftr v (8 * Z.of_nat n))].
Proof.
  induction n as [| n IH]; intros v.
  - cbn [object_bytes app]. rewrite Z.shiftr_0_r. reflexivity.
  - change (object_bytes (S (S n)) v)
      with (byte_of_Z v :: object_bytes (S n) (Z.shiftr v 8)).
    rewrite IH. cbn [object_bytes app].
    rewrite Z.shiftr_shiftr by lia.
    replace (8 + 8 * Z.of_nat n) with (8 * Z.of_nat (S n)) by lia.
    reflexivity.
Qed.

Lemma rev_object_bytes_S (n : nat) (v : Z) :
  rev (object_bytes (S n) v)
  = byte_of_Z (Z.shiftr v (8 * Z.of_nat n)) :: rev (object_bytes n v).
Proof.
  rewrite object_bytes_snoc, rev_app_distr. reflexivity.
Qed.

Lemma firstn_object_bytes (m : nat) :
  forall n v, (m <= n)%nat -> firstn m (object_bytes n v) = object_bytes m v.
Proof.
  induction m as [| m IH]; intros n v H; [reflexivity |].
  destruct n as [| n]; [lia |].
  cbn [object_bytes firstn]. f_equal. apply IH. lia.
Qed.

(** The byte of [v] at position [n], as a number. *)
Lemma top_byte_value (n : nat) (v : Z) :
  to_uint8 (byte_of_Z (Z.shiftr v (8 * Z.of_nat n))) = (v / pow256 n) mod 256.
Proof. rewrite to_uint8_byte_of_Z, shiftr_bytes. reflexivity. Qed.

Lemma div_between (v P a b : Z) :
  0 < P -> a * P <= v < b * P -> a <= v / P < b.
Proof.
  intros HP [Hl Hu]. split.
  - apply Z.div_le_lower_bound; lia.
  - apply Z.div_lt_upper_bound; lia.
Qed.

Lemma div_bounds_inv (v P : Z) : 0 < P -> P * (v / P) <= v < P * (v / P) + P.
Proof.
  intros HP. pose proof (Z.div_mod v P ltac:(lia)).
  pose proof (Z.mod_pos_bound v P HP). lia.
Qed.

(** With the bytes above position [n] all fill, the byte at position [n]
    is the fill byte exactly when the bytes above [n - 1] are all fill. *)
Lemma top_byte_fill (n : nat) (v : Z) :
  fill_above (S n) v ->
  (v / pow256 n) mod 256 = fill_value v <-> fill_above n v.
Proof.
  unfold fill_above, fill_value. rewrite pow256_S.
  pose proof (pow256_pos n) as HP. intros HU.
  pose proof (div_bounds_inv v (pow256 n) HP) as Hq.
  assert (Hr : -256 <= v / pow256 n < 256) by (apply div_between; lia).
  destruct (Z.ltb_spec v 0) as [Hneg | Hpos].
  - assert (Hq0 : v / pow256 n < 0) by (apply Z.div_lt_upper_bound; lia).
    replace ((v / pow256 n) mod 256) with (v / pow256 n + 256)
      by (apply (Z.mod_unique _ _ (-1)); lia).
    split; intros H.
    + assert (E : v / pow256 n = -1) by lia. rewrite E in Hq. lia.
    + assert (E : -1 <= v / pow256 n < 0) by (apply div_between; lia). lia.
  - assert (Hq0 : 0 <= v / pow256 n) by (apply Z.div_pos; lia).
    rewrite Z.mod_small by lia.
    split; intros H.
    + rewrite H in Hq. lia.
    + assert (E : 0 <= v / pow256 n < 1) by (apply div_between; lia). lia.
Qed.

Lemma eqb_fill (b : byte) (v : Z) :
  Byte.eqb b (if v <? 0 then xff else x00) = true <-> to_uint8 b = fill_value v.
Proof.
  unfold fill_value. split.
  - intros H. apply Byte.byte_dec_bl in H. subst b.
    destruct (v <? 0); reflexivity.
  - intros H. apply Byte.byte_dec_lb. apply to_uint8_inj. rewrite H.
    destruct (v <? 0); reflexivity.
Qed.

(** The scan from the most-significant byte stops at the first byte that
    is not fill. *)
Lemma scan_fill (n : nat) (v : Z) :
  fill_above n v ->
  exists m : nat,
    Nat.sub n (find_if_not (fun b => Byte.eqb b (if v <? 0 then xff else x00))
                           (rev (object_bytes n v))) = m
    /\ (m <= n)%nat
    /\ fill_above m v
    /\ (m = O \/ exists m', m = S m' /\ ~ fill_above m' v).
Proof.
  induction n as [| n IH]; intros HU.
  - exists O.
    split; [reflexivity | split; [lia | split; [exact HU | left; reflexivity]]].
  - rewrite rev_object_bytes_S. cbn [find_if_not].
    destruct (Byte.eqb _ _) eqn:E.
    + apply eqb_fill in E. rewrite top_byte_value in E.
      apply (top_byte_fill n v HU) in E.
      destruct (IH E) as (m & Hm & Hle & HUm & Hmin).
      exists m.
      split; [cbn [Nat.sub]; exact Hm | split; [lia | split; assumption]].
    + exists (S n).
      split; [reflexivity | split; [lia | split; [exact HU |]]].
      right. exists n. split; [reflexivity |].
      intros HUn. apply (top_byte_fill n v HU) in HUn.
      rewrite <- top_byte_value in HUn. apply eqb_fill in HUn.
      rewrite HUn in E. discriminate.
Qed.

Lemma find_if_not_le {A : Type} (p : A -> bool) (l : list A) :
  (find_if_not p l <= length l)%nat.
Proof.
  induction l as [| x l IH]; simpl; [lia |].
  destruct (p x); lia.
Qed.

Lemma nth_object_bytes (n : nat) :
  forall (i : nat) (v : Z),
    (i < n)%nat ->
    nth i (object_bytes n v) x00 = byte_of_Z (Z.shiftr v (8 * Z.of_nat i)).
Proof.
  induction n as [| n IH]; intros i v Hi; [lia |].
  destruct i as [| i]; cbn [object_bytes nth].
  - rewrite Z.shiftr_0_r. reflexivity.
  - rewrite IH by lia. rewrite Z.shiftr_shiftr by lia.
    f_equal. f_equal. lia.
Qed.

Lemma top_bit_byte (b : byte) :
  negb (Z.land (to_uint8 b) 0x80 =? 0) = (128 <=? to_uint8 b).
Proof. destruct b; reflexivity. Qed.

Lemma fits_signed_fill_above (n : nat) (v : Z) :
  fits_signed n v -> fill_above n v.
Proof.
  unfold fits_signed, fill_above. pose proof (pow256_pos n). lia.
Qed.

Lemma fill_above_fits_signed_S (n : nat) (v : Z) :
  fill_above n v -> fits_signed (S n) v.
Proof.
  unfold fits_signed, fill_above. rewrite pow256_S.
  pose proof (pow256_pos n). lia.
Qed.

Lemma fill_above_mono (n m : nat) (v : Z) :
  (n <= m)%nat -> fill_above n v -> fill_above m v.
Proof.
  unfold fill_above. intros H Hn. pose proof (pow256_le n m H). lia.
Qed.

Lemma fits_signed_mono (n m : nat) (v : Z) :
  (n <= m)%nat -> fits_signed n v -> fits_signed m v.
Proof.
  unfold fits_signed. intros H Hn. pose proof (pow256_le n m H). lia.
Qed.

(** With the bytes above position [k] all fill, the top bit of the byte at
    position [k] disagrees with the sign exactly when [k + 1] bytes do not
    hold the value. *)
Lemma sign_bit_disagrees (k : nat) (v : Z) :
  fill_above (S k) v ->
  xorb (v <? 0) (128 <=? (v / pow256 k) mod 256) = true
  <-> ~ fits_signed (S k) v.
Proof.
  unfold fill_above, fits_signed. rewrite pow256_S.
  pose proof (pow256_pos k) as HP. intros HU.
  pose proof (div_bounds_inv v (pow256 k) HP) as Hq.
  assert (Hr : -256 <= v / pow256 k < 256) by (apply div_between; lia).
  destruct (Z.ltb_spec v 0) as [Hneg | Hpos]; cbn [xorb].
  - assert (Hq0 : v / pow256 k < 0) by (apply Z.div_lt_upper_bound; lia).
    replace ((v / pow256 k) mod 256) with (v / pow256 k + 256)
      by (apply (Z.mod_unique _ _ (-1)); lia).
    destruct (Z.leb_spec 128 (v / pow256 k + 256)) as [H | H]; cbn [negb].
    + split; [discriminate |]. intros Hn. exfalso. apply Hn. nia.
    + split; [| reflexivity]. intros _ Hf.
      assert (E : -128 <= v / pow256 k) by (apply Z.div_le_lower_bound; lia).
      lia.
  - assert (Hq0 : 0 <= v / pow256 k) by (apply Z.div_pos; lia).
    rewrite Z.mod_small by lia.
    destruct (Z.leb_spec 128 (v / pow256 k)) as [H | H].
    + split; [| reflexivity]. intros _ Hf.
      assert (E : v / pow256 k < 128) by (apply Z.div_lt_upper_bound; lia).
      lia.
    + split; [discriminate |]. intros Hn. exfalso. apply Hn. nia.
Qed.

Lemma is_int128_fits_signed (v : Z) : is_int128 v <-> fits_signed 16 v.
Proof.
  unfold is_int128, fits_signed.
  change (pow256 16) with (2 * 2 ^ 127). lia.
Qed.

(** The retained length: the least number of bytes, one at least, that
    hold the value in two's complement. *)
Lemma decimal128_length_minimal (v : Z) :
  is_int128 v ->
  exists L : nat,
    SparkMurmurHash3_32.decimal128_length v = Z.of_nat L
    /\ (1 <= L <= 16)%nat
    /\ fits_signed L v
    /\ (L = 1%nat \/ exists L', L = S L' /\ (1 <= L')%nat /\ ~ fits_signed L' v).
Proof.
  intros Hv. apply is_int128_fits_signed in Hv.
  destruct (scan_fill 16 v (fits_signed_fill_above _ _ Hv))
    as (m & Hm & Hle & HUm & Hmin).
  unfold SparkMurmurHash3_32.decimal128_length. cbv zeta.
  unfold SparkMurmurHash3_32.key_size.
  pose proof (find_if_not_le (fun b => Byte.eqb b (if v <? 0 then xff else x00))
                (rev (object_bytes 16 v))) as Hfind.
  rewrite length_rev, length_object_bytes in Hfind.
  replace (16 - Z.of_nat (find_if_not _ (rev (object_bytes 16 v))))
    with (Z.of_nat m) by lia.
  clear Hm Hfind.
  set (L := Nat.max 1 m).
  replace (Z.max 1 (Z.of_nat m)) with (Z.of_nat L) by (unfold L; lia).
  assert (HL : (1 <= L <= 16)%nat) by (unfold L; lia).
  assert (HUL : fill_above L v)
    by (apply (fill_above_mono m); [unfold L; lia | exact HUm]).
  destruct L as [| k] eqn:EL; [lia |].
  replace (Z.of_nat (S k) - 1) with (Z.of_nat k) by lia.
  rewrite at_offset_nth, nth_object_bytes by lia.
  rewrite top_bit_byte, top_byte_value.
  pose proof (sign_bit_disagrees k v HUL) as Hsign.
  destruct (xorb _ _).
  - assert (Hnf : ~ fits_signed (S k) v) by (apply Hsign; reflexivity).
    destruct (Z.ltb_spec (Z.of_nat (S k)) 16) as [Hlt | Hge]; cbn [andb].
    + exists (S (S k)).
      split; [lia | split; [lia | split]].
      * apply fill_above_fits_signed_S. exact HUL.
      * right. exists (S k). split; [reflexivity | split; [lia | exact Hnf]].
    + exfalso. apply Hnf. replace (S k) with 16%nat by lia. exact Hv.
  - assert (Hf : fits_signed (S k) v).
    { destruct (Z.ltb_spec v 0);
        unfold fits_signed; unfold fits_signed in Hsign;
        destruct (Z.le_gt_cases (- pow256 (S k)) (2 * v));
        destruct (Z.lt_ge_cases (2 * v) (pow256 (S k)));
        try lia; exfalso;
        assert (Hc : false = true) by (apply Hsign; lia); discriminate. }
    rewrite andb_false_r.
    exists (S k). split; [reflexivity | split; [lia | split; [exact Hf |]]].
    destruct Hmin as [Hm0 | (m' & Hm' & Hnm')].
    + left. unfold L in EL. lia.
    + destruct m' as [| m''].
      * left. unfold L in EL. lia.
      * right. exists (S m''). split; [unfold L in EL; lia | split; [lia |]].
        intros Hc. apply Hnm'. apply fits_signed_fill_above. exact Hc.
Qed.

Lemma little_endian_unsigned_object_bytes (n : nat) :
  forall v, little_endian_unsigned (object_bytes n v) = v mod pow256 n.
Proof.
  induction n as [| n IH]; intros v.
  - cbn [object_bytes little_endian_unsigned]. unfold pow256.
    rewrite Z.mod_1_r. reflexivity.
  - cbn [object_bytes little_endian_unsigned].
    rewrite IH, to_uint8_byte_of_Z, pow256_S, Z.shiftr_div_pow2 by lia.
    pose proof (pow256_pos n).
    rewrite Z.rem_mul_r by lia. change (2 ^ 8) with 256. lia.
Qed.

Lemma big_endian_unsigned_snoc (l : list byte) (b : byte) :
  Reference.big_endian_unsigned (l ++ [b])
  = Reference.big_endian_unsigned l * 256 + to_uint8 b.
Proof.
  unfold Reference.big_endian_unsigned. rewrite fold_left_app. reflexivity.
Qed.

Lemma big_endian_unsigned_rev (l : list byte) :
  Reference.big_endian_unsigned (rev l) = little_endian_unsigned l.
Proof.
  induction l as [| b l IH]; [reflexivity |].
  cbn [rev little_endian_unsigned].
  rewrite big_endian_unsigned_snoc, IH. reflexivity.
Qed.

Lemma big_endian_unsigned_cons (b : byte) (l : list byte) :
  Reference.big_endian_unsigned (b :: l)
  = to_uint8 b * pow256 (length l) + Reference.big_endian_unsigned l
  /\ 0 <= Reference.big_endian_unsigned l < pow256 (length l).
Proof.
  revert b. induction l as [| c l IH] using rev_ind; intros b.
  - unfold Reference.big_endian_unsigned, pow256. simpl. lia.
  - change (b :: l ++ [c]) with ((b :: l) ++ [c]).
    rewrite !big_endian_unsigned_snoc, length_app. cbn [length].
    replace (length l + 1)%nat with (S (length l)) by lia.
    rewrite pow256_S. destruct (IH b) as [E R]. rewrite E.
    pose proof (to_uint8_range c). split; lia.
Qed.

(** The retained little-endian bytes, reversed, expand to the value. *)
Lemma sign_extend_rev_object_bytes (k : nat) (v : Z) :
  fits_signed (S k) v ->
  Reference.sign_extend_big_endian (rev (object_bytes (S k) v)) = Some v.
Proof.
  intros Hf.
  assert (Hbe : Reference.big_endian_unsigned (rev (object_bytes (S k) v))
                = v mod pow256 (S k))
    by (rewrite big_endian_unsigned_rev; apply little_endian_unsigned_object_bytes).
  assert (Hlen : length (rev (object_bytes (S k) v)) = S k)
    by (rewrite length_rev; apply length_object_bytes).
  pose proof (rev_object_bytes_S k v) as Hhead.
  destruct (rev (object_bytes (S k) v)) as [| b r]; [discriminate |].
  assert (Hb : b = byte_of_Z (Z.shiftr v (8 * Z.of_nat k))) by congruence.
  unfold Reference.sign_extend_big_endian. rewrite Hbe, Hlen, Hb.
  rewrite top_byte_value. fold (pow256 (S k)).
  unfold fits_signed in Hf. rewrite pow256_S in *.
  pose proof (pow256_pos k) as HP.
  pose proof (div_bounds_inv v (pow256 k) HP) as Hq.
  change (2 ^ 7) with 128. f_equal.
  destruct (Z.lt_ge_cases v 0) as [Hneg | Hpos].
  - assert (Hr : -128 <= v / pow256 k < 0) by (apply div_between; lia).
    replace ((v / pow256 k) mod 256) with (v / pow256 k + 256)
      by (apply (Z.mod_unique _ _ (-1)); lia).
    destruct (Z.ltb_spec (v / pow256 k + 256) 128); [lia |].
    replace (v mod (256 * pow256 k)) with (v + 256 * pow256 k)
      by (apply (Z.mod_unique _ _ (-1)); lia).
    lia.
  - assert (Hr : 0 <= v / pow256 k < 128) by (apply div_between; lia).
    rewrite (Z.mod_small (v / pow256 k)) by lia.
    destruct (Z.ltb_spec (v / pow256 k) 128); [| lia].
    apply Z.mod_small. lia.
Qed.

Lemma Some_eq {A : Type} (a b : A) : Some a = Some b -> a = b.
Proof. intros H. injection H as H. exact H. Qed.

Lemma sign_extend_big_endian_cons (b : byte) (r : list byte) :
  Reference.sign_extend_big_endian (b :: r)
  = Some (if to_uint8 b <? 128
          then to_uint8 b * pow256 (length r) + Reference.big_endian_unsigned r
          else to_uint8 b * pow256 (length r) + Reference.big_endian_unsigned r
               - 256 * pow256 (length r)).
Proof.
  unfold Reference.sign_extend_big_endian.
  rewrite (proj1 (big_endian_unsigned_cons b r)).
  fold (pow256 (length (b :: r))). cbn [length]. rewrite pow256_S.
  reflexivity.
Qed.

(** A span that expands to [v] has room for [v]. *)
Lemma sign_extend_big_endian_fits (bs : list byte) (v : Z) :
  Reference.sign_extend_big_endian bs = Some v ->
  (1 <= length bs)%nat /\ fits_signed (length bs) v.
Proof.
  destruct bs as [| b r]; [discriminate |].
  rewrite sign_extend_big_endian_cons. intros H. apply Some_eq in H.
  pose proof (proj2 (big_endian_unsigned_cons b r)) as R.
  cbn [length]. unfold fits_signed. rewrite pow256_S.
  pose proof (to_uint8_range b) as Hb.
  split; [lia |].
  destruct (Z.ltb_spec (to_uint8 b) 128); nia.
Qed.

(** The leading byte of a span carries the sign of what it expands to. *)
Lemma sign_extend_big_endian_sign (b : byte) (r : list byte) (v : Z) :
  Reference.sign_extend_big_endian (b :: r) = Some v ->
  (128 <=? to_uint8 b) = (v <? 0).
Proof.
  rewrite sign_extend_big_endian_cons. intros H. apply Some_eq in H.
  pose proof (proj2 (big_endian_unsigned_cons b r)) as R.
  pose proof (to_uint8_range b) as Hb.
  destruct (Z.ltb_spec (to_uint8 b) 128);
    destruct (Z.leb_spec 128 (to_uint8 b)); try lia;
    destruct (Z.ltb_spec v 0); try reflexivity; nia.
Qed.

Lemma decimal128_span_bytes (v : Z) :
  is_int128 v ->
  exists L : nat,
    SparkMurmurHash3_32.decimal128_span v = rev (object_bytes L v)
    /\ (1 <= L <= 16)%nat
    /\ fits_signed L v
    /\ (L = 1%nat \/ exists L', L = S L' /\ (1 <= L')%nat /\ ~ fits_signed L' v).
Proof.
  intros Hv.
  destruct (decimal128_length_minimal v Hv) as (L & HL & Hr & Hf & Hmin).
  exists L. split; [| auto].
  unfold SparkMurmurHash3_32.decimal128_span,
    SparkMurmurHash3_32.decimal128_big_endian_data. cbv zeta.
  rewrite HL, Nat2Z.id, firstn_object_bytes by lia.
  rewrite firstn_app, length_rev, length_object_bytes, Nat.sub_diag.
  cbn [firstn]. rewrite app_nil_r.
  apply firstn_all2. rewrite length_rev, length_object_bytes. lia.
Qed.

Lemma for_loop_ext {A : Type} (body1 body2 : Z -> A -> A) (n : nat) :
  forall lo a,
    (forall j x, lo <= j < lo + Z.of_nat n -> body1 j x = body2 j x) ->
    for_loop n lo body1 a = for_loop n lo body2 a.
Proof.
  induction n as [| n IH]; intros lo a H; [reflexivity |].
  cbn [for_loop]. rewrite H by lia. apply IH.
  intros j x Hj. apply H. lia.
Qed.

Lemma at_offset_firstn (n : nat) (data : list byte) (i : Z) :
  0 <= i < Z.of_nat n -> at_offset (firstn n data) i = at_offset data i.
Proof.
  intros Hi. unfold at_offset. rewrite nth_firstn.
  destruct (Nat.ltb_spec (Z.to_nat i) n); [reflexivity | lia].
Qed.

(** [compute_bytes] reads the first [len] bytes of its buffer only. *)
Lemma spark_compute_bytes_firstn (seed : Z) (data : list byte) (len : Z) :
  0 <= len ->
  SparkMurmurHash3_32.compute_bytes seed (firstn (Z.to_nat len) data) len
  = SparkMurmurHash3_32.compute_bytes seed data len.
Proof.
  intros Hl.
  unfold SparkMurmurHash3_32.compute_bytes. cbv zeta.
  unfold SparkMurmurHash3_32.BLOCK_SIZE, for_range.
  pose proof (Z.quot_rem' len 4) as Hqr.
  pose proof (Z.rem_bound_pos len 4 Hl ltac:(lia)) as Hrem.
  pose proof (Z.quot_pos len 4 Hl ltac:(lia)) as Hq.
  set (prefix := firstn (Z.to_nat len) data).
  assert (Hblocks : forall h,
             for_loop (Z.to_nat (Z.quot len 4 - 0)) 0
                      (SparkMurmurHash3_32.block_body prefix) h
             = for_loop (Z.to_nat (Z.quot len 4 - 0)) 0
                        (SparkMurmurHash3_32.block_body data) h).
  { intros h. apply for_loop_ext. intros j x Hj.
    unfold SparkMurmurHash3_32.block_body, SparkMurmurHash3_32.getblock32.
    cbv zeta. unfold SparkMurmurHash3_32.BLOCK_SIZE, prefix.
    rewrite !at_offset_firstn by lia. reflexivity. }
  assert (Htail : forall h,
             for_loop (Z.to_nat (len - Z.quot len 4 * 4)) (Z.quot len 4 * 4)
                      (SparkMurmurHash3_32.tail_body prefix) h
             = for_loop (Z.to_nat (len - Z.quot len 4 * 4)) (Z.quot len 4 * 4)
                        (SparkMurmurHash3_32.tail_body data) h).
  { intros h. apply for_loop_ext. intros j x Hj.
    unfold SparkMurmurHash3_32.tail_body. cbv zeta. unfold prefix.
    rewrite at_offset_firstn by lia. reflexivity. }
  rewrite Hblocks, Htail. reflexivity.
Qed.

(** Of the 16-byte buffer of a 128-bit decimal key only the encoder's span
    is hashed. *)
Lemma spark_decimal128_hashes_span (seed v : Z) :
  is_int128 v ->
  SparkMurmurHash3_32.call seed (KDecimal128 v)
  = Value (SparkMurmurHash3_32.compute_bytes seed
             (SparkMurmurHash3_32.decimal128_span v)
             (Z.of_nat (length (SparkMurmurHash3_32.decimal128_span v)))).
Proof.
  intros Hv.
  destruct (decimal128_length_minimal v Hv) as (L & HL & Hr & _).
  assert (Hbuf : length (SparkMurmurHash3_32.decimal128_big_endian_data v) = 16%nat).
  { unfold SparkMurmurHash3_32.decimal128_big_endian_data. cbv zeta.
    rewrite HL, Nat2Z.id, length_app, length_rev, repeat_length.
    rewrite firstn_object_bytes, length_object_bytes by lia. lia. }
  cbn [SparkMurmurHash3_32.call]. f_equal.
  unfold SparkMurmurHash3_32.decimal128_span.
  rewrite length_firstn, Hbuf, HL, Nat2Z.id.
  replace (Z.of_nat (Nat.min L 16)) with (Z.of_nat L) by lia.
  rewrite <- (Nat2Z.id L) at 2.
  rewrite spark_compute_bytes_firstn by lia. reflexivity.
Qed.

(** C4: for every 128-bit signed value the span the encoder hands to the
    reference-engine-compatible hash is a big-endian span that sign-extends
    to the value, its leading byte carrying the sign, and no span that
    sign-extends to the value is shorter; 0, -1, 127 and 128 encode as
    0x00, 0xff, 0x7f and 0x00 0x80. *)
Theorem decimal128_span_minimal (v : Z) :
  is_int128 v ->
  (forall seed : Z,
      SparkMurmurHash3_32.call seed (KDecimal128 v)
      = Value (SparkMurmurHash3_32.compute_bytes seed
                 (SparkMurmurHash3_32.decimal128_span v)
                 (Z.of_nat (length (SparkMurmurHash3_32.decimal128_span v)))))
  /\ Reference.sign_extend_big_endian (SparkMurmurHash3_32.decimal128_span v) = Some v
  /\ (forall bs : list byte,
         Reference.sign_extend_big_endian bs = Some v ->
         (length (SparkMurmurHash3_32.decimal128_span v) <= length bs)%nat)
  /\ (exists b r, SparkMurmurHash3_32.decimal128_span v = b :: r
                  /\ (128 <=? to_uint8 b) = (v <? 0))
  /\ (1 <= length (SparkMurmurHash3_32.decimal128_span v) <= 16)%nat
  /\ SparkMurmurHash3_32.decimal128_span 0 = [x00]
  /\ SparkMurmurHash3_32.decimal128_span (-1) = [xff]
  /\ SparkMurmurHash3_32.decimal128_span 127 = [x7f]
  /\ SparkMurmurHash3_32.decimal128_span 128 = [x00; x80].
Proof.
  intros Hv.
  split; [intros seed; apply spark_decimal128_hashes_span; exact Hv |].
  destruct (decimal128_span_bytes v Hv) as (L & Hspan & Hr & Hf & Hmin).
  rewrite Hspan.
  assert (Hdec : Reference.sign_extend_big_endian (rev (object_bytes L v)) = Some v).
  { destruct L as [| k]; [lia |]. apply sign_extend_rev_object_bytes. exact Hf. }
  split; [exact Hdec |].
  split.
  { intros bs Hbs. rewrite length_rev, length_object_bytes.
    destruct (sign_extend_big_endian_fits bs v Hbs) as [H1 Hfb].
    destruct Hmin as [-> | (L' & -> & HL' & Hn)]; [exact H1 |].
    destruct (Nat.le_gt_cases (S L') (length bs)) as [Hle | Hgt]; [exact Hle |].
    exfalso. apply Hn. apply (fits_signed_mono (length bs)); [lia | exact Hfb]. }
  split.
  { destruct (rev (object_bytes L v)) as [| b r] eqn:E; [discriminate |].
    exists b, r. split; [reflexivity |].
    apply (sign_extend_big_endian_sign b r v Hdec). }
  split; [rewrite length_rev, length_object_bytes; exact Hr |].
  repeat split; vm_compute; reflexivity.
Qed.

Lemma decimal128_span_minimal_witness :
  is_int128 (-129)
  /\ SparkMurmurHash3_32.decimal128_span (-129) = [xff; x7f]
  /\ Reference.sign_extend_big_endian [xff; x7f] = Some (-129)
  /\ Reference.sign_extend_big_endian (SparkMurmurHash3_32.decimal128_span (-129))
     = Some (-129).
Proof.
  assert (H : is_int128 (-129)) by (unfold is_int128; lia).
  split; [exact H | split; [reflexivity | split; [reflexivity |]]].
  exact (proj1 (proj2 (decimal128_span_minimal (-129) H))).
Defined.

(** * Further properties of the header and of the regex flags *)

(** ** Exhaustive tests *)

Lemma forall_from_spec (p : Z -> bool) (n : nat) :
  forall i, forall_from p n i = true ->
            forall x, i <= x < i + Z.of_nat n -> p x = true.
Proof.
  induction n as [| n IH]; intros i H x Hx; [lia |].
  cbn [forall_from] in H. apply andb_true_iff in H as [Hi Hrest].
  destruct (Z.eq_dec x i) as [-> | Hne]; [exact Hi |].
  apply (IH (i + 1) Hrest). lia.
Qed.

Lemma span_eqb_eq (l1 l2 : list byte) : span_eqb l1 l2 = true -> l1 = l2.
Proof.
  revert l2. induction l1 as [| b1 l1 IH]; intros [| b2 l2] H;
    try discriminate; [reflexivity |].
  cbn [span_eqb] in H. apply andb_true_iff in H as [Hb Hl].
  apply Byte.byte_dec_bl in Hb. subst b2. f_equal. apply IH. exact Hl.
Qed.

(** ** Words as two lanes *)

Lemma testbit_split (k a b n : Z) :
  0 <= k -> 0 <= a < 2 ^ k -> 0 <= n ->
  Z.testbit (a + 2 ^ k * b) n
  = if n <? k then Z.testbit a n else Z.testbit b (n - k).
Proof.
  intros Hk Ha Hn.
  replace (a + 2 ^ k * b) with (a + b * 2 ^ k) by lia.
  rewrite <- lor_low_high by lia.
  rewrite Z.lor_spec, <- Z.shiftl_mul_pow2 by lia.
  destruct (Z.ltb_spec n k).
  - rewrite Z.shiftl_spec_low by lia. apply orb_false_r.
  - rewrite Z.shiftl_spec by lia.
    rewrite <- (Z.mod_small a (2 ^ k)) by lia.
    rewrite Z.mod_pow2_bits_high by lia. reflexivity.
Qed.

Lemma land_range (k a c : Z) :
  0 <= k -> 0 <= c < 2 ^ k -> 0 <= Z.land a c < 2 ^ k.
Proof.
  intros Hk Hc.
  assert (E : Z.land a c = Z.land a c mod 2 ^ k).
  { rewrite <- Z.land_ones by lia. rewrite <- Z.land_assoc.
    rewrite (Z.land_ones c) by lia. rewrite Z.mod_small by lia. reflexivity. }
  rewrite E. apply Z.mod_pos_bound. apply Z.pow_pos_nonneg; lia.
Qed.

Lemma lor_range (k a c : Z) :
  0 <= k -> 0 <= a < 2 ^ k -> 0 <= c < 2 ^ k -> 0 <= Z.lor a c < 2 ^ k.
Proof.
  intros Hk Ha Hc.
  assert (E : Z.lor a c = Z.lor a c mod 2 ^ k).
  { rewrite <- Z.land_ones by lia. rewrite Z.land_lor_distr_l.
    rewrite !Z.land_ones by lia. rewrite !Z.mod_small by lia. reflexivity. }
  rewrite E. apply Z.mod_pos_bound. apply Z.pow_pos_nonneg; lia.
Qed.

Lemma land_split (k a b c d : Z) :
  0 <= k -> 0 <= a < 2 ^ k -> 0 <= c < 2 ^ k ->
  Z.land (a + 2 ^ k * b) (c + 2 ^ k * d) = Z.land a c + 2 ^ k * Z.land b d.
Proof.
  intros Hk Ha Hc. apply Z.bits_inj'. intros n Hn.
  pose proof (land_range k a c Hk Hc).
  rewrite Z.land_spec, !testbit_split by lia.
  destruct (n <? k); rewrite Z.land_spec; reflexivity.
Qed.

Lemma lor_split (k a b c d : Z) :
  0 <= k -> 0 <= a < 2 ^ k -> 0 <= c < 2 ^ k ->
  Z.lor (a + 2 ^ k * b) (c + 2 ^ k * d) = Z.lor a c + 2 ^ k * Z.lor b d.
Proof.
  intros Hk Ha Hc. apply Z.bits_inj'. intros n Hn.
  pose proof (lor_range k a c Hk Ha Hc).
  rewrite Z.lor_spec, !testbit_split by lia.
  destruct (n <? k); rewrite Z.lor_spec; reflexivity.
Qed.

(** A right shift followed by a mask that clears what the shift brought
    down from the upper lane. *)
Lemma land_shiftr_split (k s a b m0 m1 : Z) :
  0 <= s <= k -> 0 <= a < 2 ^ k -> 0 <= m0 < 2 ^ (k - s) ->
  Z.land (Z.shiftr (a + 2 ^ k * b) s) (m0 + 2 ^ k * m1)
  = Z.land (Z.shiftr a s) m0 + 2 ^ k * Z.land (Z.shiftr b s) m1.
Proof.
  intros Hs Ha Hm. apply Z.bits_inj'. intros n Hn.
  assert (Hpow : 2 ^ (k - s) <= 2 ^ k) by (apply Z.pow_le_mono_r; lia).
  assert (Hm' : 0 <= m0 < 2 ^ k) by lia.
  pose proof (land_range k (Z.shiftr a s) m0 ltac:(lia) Hm').
  rewrite Z.land_spec, Z.shiftr_spec, !testbit_split by lia.
  destruct (Z.ltb_spec n k) as [Hlt | Hge].
  - rewrite Z.land_spec, Z.shiftr_spec by lia.
    destruct (Z.ltb_spec (n + s) k) as [Hlt' | Hge']; [reflexivity |].
    assert (Hbit : Z.testbit m0 n = false).
    { rewrite <- (Z.mod_small m0 (2 ^ (k - s))) by lia.
      apply Z.mod_pow2_bits_high. lia. }
    rewrite Hbit, !andb_false_r. reflexivity.
  - destruct (Z.ltb_spec (n + s) k); [lia |].
    rewrite Z.land_spec, Z.shiftr_spec by lia.
    do 2 f_equal. lia.
Qed.

(** ** The hexadecimal rendering *)

Lemma hex_lane_checked : forall_from hex_lane_ok (Z.to_nat 65536) 0 = true.
Proof. vm_compute. reflexivity. Qed.

Lemma hex_lane_facts (w : Z) :
  0 <= w < 65536 ->
  0 <= hex_lane_spread w < 2 ^ 28
  /\ 0 <= hex_lane_offsets w
  /\ hex_lane w < 2 ^ 32
  /\ object_bytes 4 (hex_lane w) = flat_map hex_of_byte (object_bytes 2 w).
Proof.
  intros Hw.
  pose proof (forall_from_spec hex_lane_ok _ 0 hex_lane_checked w ltac:(lia)) as H.
  unfold hex_lane_ok in H.
  apply andb_true_iff in H as [H H5]. apply andb_true_iff in H as [H H4].
  apply andb_true_iff in H as [H H3]. apply andb_true_iff in H as [H1 H2].
  apply Z.leb_le in H1. apply Z.ltb_lt in H2.
  apply Z.leb_le in H3. apply Z.ltb_lt in H4.
  apply span_eqb_eq in H5.
  split; [split; assumption |].
  split; [assumption |].
  split; assumption.
Qed.

Lemma wrap64_lanes (a b : Z) :
  0 <= a < 2 ^ 32 -> 0 <= b < 2 ^ 32 -> wrap64 (lanes a b) = lanes a b.
Proof.
  intros Ha Hb. unfold wrap64, lanes. apply Z.mod_small. lia.
Qed.

Lemma masked_shift_range (k s a m : Z) :
  0 <= k -> 0 <= s -> k + s <= 32 -> 0 <= m < 2 ^ k ->
  0 <= Z.land a m * 2 ^ s < 2 ^ 32.
Proof.
  intros Hk Hs Hks Hm.
  pose proof (land_range k a m Hk Hm) as Hl.
  assert (Hp : 0 < 2 ^ s) by (apply Z.pow_pos_nonneg; lia).
  assert (Hle : 2 ^ (k + s) <= 2 ^ 32) by (apply Z.pow_le_mono_r; lia).
  rewrite Z.pow_add_r in Hle by lia.
  split; [apply Z.mul_nonneg_nonneg; lia |].
  eapply Z.lt_le_trans; [| exact Hle].
  apply Z.mul_lt_mono_pos_r; lia.
Qed.

Lemma masked_shift_left_lanes (k s a b m : Z) :
  0 <= k -> 0 <= s -> k + s <= 32 -> 0 <= a < 2 ^ 32 -> 0 <= m < 2 ^ k ->
  wrap64 (Z.shiftl (Z.land (lanes a b) (lanes m m)) s)
  = lanes (Z.land a m * 2 ^ s) (Z.land b m * 2 ^ s).
Proof.
  intros Hk Hs Hks Ha Hm.
  assert (Hm32 : 0 <= m < 2 ^ 32).
  { assert (2 ^ k <= 2 ^ 32) by (apply Z.pow_le_mono_r; lia). lia. }
  unfold lanes at 1 2. rewrite land_split by lia.
  rewrite Z.shiftl_mul_pow2 by lia.
  replace ((Z.land a m + 2 ^ 32 * Z.land b m) * 2 ^ s)
    with (lanes (Z.land a m * 2 ^ s) (Z.land b m * 2 ^ s))
    by (unfold lanes; ring).
  apply wrap64_lanes; apply (masked_shift_range k); assumption.
Qed.

Lemma object_bytes_app (n m : nat) :
  forall v, object_bytes (n + m) v
            = object_bytes n v ++ object_bytes m (Z.shiftr v (8 * Z.of_nat n)).
Proof.
  induction n as [| n IH]; intros v.
  - cbn [Nat.add object_bytes app]. rewrite Z.shiftr_0_r. reflexivity.
  - cbn [Nat.add object_bytes app]. rewrite IH.
    rewrite Z.shiftr_shiftr by lia.
    replace (8 + 8 * Z.of_nat n) with (8 * Z.of_nat (S n)) by lia.
    reflexivity.
Qed.

Lemma object_bytes_lanes (a b : Z) :
  0 <= a < 2 ^ 32 ->
  object_bytes 8 (lanes a b) = object_bytes 4 a ++ object_bytes 4 b.
Proof.
  intros Ha. rewrite (object_bytes_app 4 4). f_equal.
  - rewrite <- (object_bytes_mod 4 (lanes a b)). f_equal.
    unfold lanes. change (2 ^ (8 * Z.of_nat 4)) with (2 ^ 32).
    rewrite Z.mul_comm, Z.mod_add by lia. apply Z.mod_small. exact Ha.
  - f_equal. rewrite Z.shiftr_div_pow2 by lia.
    unfold lanes. change (2 ^ (8 * Z.of_nat 4)) with (2 ^ 32).
    rewrite Z.mul_comm, Z.div_add by lia.
    rewrite Z.div_small by exact Ha. reflexivity.
Qed.

(** The first two statements of the function split [num] into its halves,
    one per lane. *)
Lemma hex_halves (num : Z) :
  0 <= num < 2 ^ 32 ->
  Z.lor (wrap64 (Z.shiftl (Z.land num 0xFFFF0000) 16)) (Z.land num 0xFFFF)
  = lanes (num mod 2 ^ 16) (num / 2 ^ 16).
Proof.
  intros Hn.
  assert (Hlo : 0 <= num mod 2 ^ 16 < 2 ^ 16) by (apply Z.mod_pos_bound; lia).
  assert (Hhi : 0 <= num / 2 ^ 16 < 2 ^ 16).
  { split; [apply Z.div_pos; lia | apply Z.div_lt_upper_bound; lia]. }
  assert (Hnum : num = num mod 2 ^ 16 + 2 ^ 16 * (num / 2 ^ 16)).
  { pose proof (Z.div_mod num (2 ^ 16) ltac:(lia)). lia. }
  assert (Hhigh : Z.land num 0xFFFF0000 = 2 ^ 16 * (num / 2 ^ 16)).
  { rewrite Hnum at 1.
    change 0xFFFF0000 with (0 + 2 ^ 16 * Z.ones 16).
    rewrite land_split by lia.
    rewrite Z.land_0_r, Z.land_ones, Z.mod_small by lia. lia. }
  assert (Hlow : Z.land num 0xFFFF = num mod 2 ^ 16).
  { change 0xFFFF with (Z.ones 16). apply Z.land_ones. lia. }
  rewrite Hhigh, Hlow, Z.shiftl_mul_pow2 by lia.
  unfold wrap64. rewrite Z.mod_small by lia.
  rewrite Z.lor_comm.
  replace (2 ^ 16 * (num / 2 ^ 16) * 2 ^ 16) with (num / 2 ^ 16 * 2 ^ 32) by lia.
  rewrite lor_low_high by lia. unfold lanes. lia.
Qed.

(** The second statement moves the four nibbles of each half to the low
    nibbles of the four bytes of its lane. *)
Lemma hex_spread (lo hi : Z) :
  0 <= lo < 65536 -> 0 <= hi < 65536 ->
  let x := lanes lo hi in
  Z.lor (Z.lor (Z.lor (wrap64 (Z.shiftl (Z.land x 0xF0000000F) 8))
                      (Z.shiftr (Z.land x 0xF0000000F0) 4))
               (wrap64 (Z.shiftl (Z.land x 0xF0000000F00) 16)))
        (wrap64 (Z.shiftl (Z.land x 0xF0000000F000) 4))
  = lanes (hex_lane_spread lo) (hex_lane_spread hi).
Proof.
  intros Hlo Hhi x. subst x.
  change 0xF0000000F with (lanes 0xF 0xF).
  change 0xF0000000F00 with (lanes 0xF00 0xF00).
  change 0xF0000000F000 with (lanes 0xF000 0xF000).
  rewrite (masked_shift_left_lanes 4 8) by lia.
  rewrite (masked_shift_left_lanes 12 16) by lia.
  rewrite (masked_shift_left_lanes 16 4) by lia.
  rewrite Z.shiftr_land.
  change (Z.shiftr 0xF0000000F0 4) with (0xF + 2 ^ 32 * 0xF).
  unfold lanes at 2. rewrite (land_shiftr_split 32 4) by lia.
  rewrite !Z.shiftr_div_pow2 by lia.
  pose proof (masked_shift_range 4 8 lo 0xF ltac:(lia) ltac:(lia) ltac:(lia) ltac:(lia)) as R1.
  pose proof (land_range 4 (lo / 2 ^ 4) 0xF ltac:(lia) ltac:(lia)) as R2.
  pose proof (masked_shift_range 12 16 lo 0xF00 ltac:(lia) ltac:(lia) ltac:(lia) ltac:(lia)) as R3.
  pose proof (masked_shift_range 16 4 lo 0xF000 ltac:(lia) ltac:(lia) ltac:(lia) ltac:(lia)) as R4.
  unfold lanes.
  rewrite lor_split by lia.
  assert (R2' : 0 <= Z.land (lo / 2 ^ 4) 15 < 2 ^ 32) by lia.
  pose proof (lor_range 32 _ _ ltac:(lia) R1 R2') as R12.
  rewrite lor_split by lia.
  pose proof (lor_range 32 _ _ ltac:(lia) R12 R3) as R123.
  rewrite lor_split by lia.
  reflexivity.
Qed.

(** The third statement finds, per byte, whether the digit is a letter. *)
Lemma hex_offsets (lo hi : Z) :
  0 <= lo < 65536 -> 0 <= hi < 65536 ->
  wrap64 (Z.land (Z.shiftr (wrap64 (lanes (hex_lane_spread lo) (hex_lane_spread hi)
                                    + 0x0606060606060606)) 4)
                 0x0101010101010101 * 0x27)
  = lanes (hex_lane_offsets lo) (hex_lane_offsets hi).
Proof.
  intros Hlo Hhi.
  destruct (hex_lane_facts lo Hlo) as (Rlo & _).
  destruct (hex_lane_facts hi Hhi) as (Rhi & _).
  replace (lanes (hex_lane_spread lo) (hex_lane_spread hi) + 0x0606060606060606)
    with (lanes (hex_lane_spread lo + 0x06060606) (hex_lane_spread hi + 0x06060606))
    by (unfold lanes; lia).
  rewrite wrap64_lanes by lia.
  change 0x0101010101010101 with (0x01010101 + 2 ^ 32 * 0x01010101).
  unfold lanes at 1. rewrite (land_shiftr_split 32 4) by lia.
  rewrite !Z.shiftr_div_pow2 by lia.
  pose proof (land_range 25 ((hex_lane_spread lo + 0x06060606) / 2 ^ 4) 0x01010101
                ltac:(lia) ltac:(lia)) as R1.
  pose proof (land_range 25 ((hex_lane_spread hi + 0x06060606) / 2 ^ 4) 0x01010101
                ltac:(lia) ltac:(lia)) as R2.
  replace ((Z.land ((hex_lane_spread lo + 0x06060606) / 2 ^ 4) 0x01010101
            + 2 ^ 32 * Z.land ((hex_lane_spread hi + 0x06060606) / 2 ^ 4) 0x01010101)
           * 0x27)
    with (lanes (hex_lane_offsets lo) (hex_lane_offsets hi))
    by (unfold lanes, hex_lane_offsets; ring).
  apply wrap64_lanes; unfold hex_lane_offsets; lia.
Qed.

(** X1: for a 32-bit [num] the eight bytes written are the lowercase
    hexadecimal digits of the four bytes of [num] in memory order (least
    significant byte first), each byte as its high digit then its low
    digit. *)
Theorem uint32ToLowercaseHexString_digits (num : Z) :
  is_uint32 num ->
  uint32ToLowercaseHexString num = flat_map hex_of_byte (object_bytes 4 num).
Proof.
  unfold is_uint32. intros Hn.
  assert (Hlo : 0 <= num mod 2 ^ 16 < 65536) by (apply Z.mod_pos_bound; lia).
  assert (Hhi : 0 <= num / 2 ^ 16 < 65536).
  { split; [apply Z.div_pos; lia | apply Z.div_lt_upper_bound; lia]. }
  destruct (hex_lane_facts _ Hlo) as (Rlo & Olo & Llo & Blo).
  destruct (hex_lane_facts _ Hhi) as (Rhi & Ohi & Lhi & Bhi).
  unfold uint32ToLowercaseHexString. cbv zeta.
  rewrite hex_halves by exact Hn.
  pose proof (hex_spread _ _ Hlo Hhi) as Hs. cbv zeta in Hs. rewrite Hs.
  rewrite hex_offsets by assumption.
  change 0x3030303030303030 with (0x30303030 + 2 ^ 32 * 0x30303030).
  unfold lanes at 1. rewrite lor_split by lia.
  replace (Z.lor (hex_lane_spread (num mod 2 ^ 16)) 0x30303030
           + 2 ^ 32 * Z.lor (hex_lane_spread (num / 2 ^ 16)) 0x30303030
           + lanes (hex_lane_offsets (num mod 2 ^ 16)) (hex_lane_offsets (num / 2 ^ 16)))
    with (lanes (hex_lane (num mod 2 ^ 16)) (hex_lane (num / 2 ^ 16)))
    by (unfold lanes, hex_lane; ring).
  assert (Nlo : 0 <= hex_lane (num mod 2 ^ 16)).
  { unfold hex_lane.
    assert (0 <= Z.lor (hex_lane_spread (num mod 2 ^ 16)) 0x30303030)
      by (apply Z.lor_nonneg; lia).
    lia. }
  assert (Nhi : 0 <= hex_lane (num / 2 ^ 16)).
  { unfold hex_lane.
    assert (0 <= Z.lor (hex_lane_spread (num / 2 ^ 16)) 0x30303030)
      by (apply Z.lor_nonneg; lia).
    lia. }
  rewrite wrap64_lanes, object_bytes_lanes by lia.
  rewrite Blo, Bhi, <- flat_map_app. f_equal.
  change (object_bytes 4 num) with (object_bytes (2 + 2) num).
  rewrite (object_bytes_app 2 2 num). f_equal.
  - exact (object_bytes_mod 2 num).
  - rewrite Z.shiftr_div_pow2 by lia. reflexivity.
Qed.

Lemma uint32ToLowercaseHexString_digits_witness :
  is_uint32 0xABCD1234
  /\ uint32ToLowercaseHexString 0xABCD1234
     = [x33; x34; x31; x32; x63; x64; x61; x62].
Proof.
  assert (H : is_uint32 0xABCD1234) by (unfold is_uint32; lia).
  split; [exact H |].
  exact (uint32ToLowercaseHexString_digits 0xABCD1234 H).
Defined.

(** ** Regex flags *)

Lemma land_pow2_testbit (f k : Z) :
  0 <= k -> (Z.land f (2 ^ k) =? 2 ^ k) = Z.testbit f k.
Proof.
  intros Hk. destruct (Z.testbit f k) eqn:E.
  - apply Z.eqb_eq. apply Z.bits_inj'. intros n Hn.
    rewrite Z.land_spec, Z.pow2_bits_eqb by lia.
    destruct (Z.eqb_spec k n) as [<- | Hne]; [rewrite E; reflexivity |].
    apply andb_false_r.
  - apply Z.eqb_neq. intros H.
    assert (Hb : Z.testbit (Z.land f (2 ^ k)) k = Z.testbit (2 ^ k) k) by (rewrite H; reflexivity).
    rewrite Z.land_spec, E, Z.pow2_bits_true in Hb by lia. discriminate.
Qed.

(** X2: or-ing two flag sets gives a set that is multi-line when one of
    them is and dot-all when one of them is; [MULTILINE] and [DOTALL] are
    independent of each other and [DEFAULT] has neither. *)
Theorem regex_flags_or (f g : Z) :
  regex_flags.is_multiline (Z.lor f g)
  = regex_flags.is_multiline f || regex_flags.is_multiline g
  /\ regex_flags.is_dotall (Z.lor f g)
     = regex_flags.is_dotall f || regex_flags.is_dotall g
  /\ regex_flags.is_multiline (Z.lor f regex_flags.MULTILINE) = true
  /\ regex_flags.is_multiline (Z.lor f regex_flags.DOTALL)
     = regex_flags.is_multiline f
  /\ regex_flags.is_dotall (Z.lor f regex_flags.DOTALL) = true
  /\ regex_flags.is_dotall (Z.lor f regex_flags.MULTILINE)
     = regex_flags.is_dotall f
  /\ regex_flags.is_multiline regex_flags.DEFAULT = false
  /\ regex_flags.is_dotall regex_flags.DEFAULT = false.
Proof.
  unfold regex_flags.is_multiline, regex_flags.is_dotall,
    regex_flags.MULTILINE, regex_flags.DOTALL, regex_flags.DEFAULT.
  change 8 with (2 ^ 3). change 16 with (2 ^ 4).
  rewrite !land_pow2_testbit, !Z.lor_spec by lia.
  rewrite !Z.pow2_bits_eqb by lia. cbn [Z.eqb Pos.eqb].
  rewrite !orb_true_r, !orb_false_r.
  repeat split; reflexivity.
Qed.

(** ** The canonicalizer *)

Lemma isnan_quiet_NaN (t : float_type) : isnan t (quiet_NaN t) = true.
Proof. destruct t; reflexivity. Qed.

Lemma eq_zero_quiet_NaN (t : float_type) : eq_zero t (quiet_NaN t) = false.
Proof. destruct t; reflexivity. Qed.

Lemma isnan_zero (t : float_type) : isnan t (zero t) = false.
Proof. destruct t; reflexivity. Qed.

Lemma eq_zero_zero (t : float_type) : eq_zero t (zero t) = true.
Proof. destruct t; reflexivity. Qed.

Lemma normalize_nans_and_zeros_idempotent (t : float_type) (key : Z) :
  normalize_nans_and_zeros t (normalize_nans_and_zeros t key)
  = normalize_nans_and_zeros t key.
Proof.
  unfold normalize_nans_and_zeros.
  destruct (isnan t key) eqn:Hn.
  - rewrite isnan_quiet_NaN. reflexivity.
  - destruct (eq_zero t key) eqn:Hz.
    + rewrite isnan_zero, eq_zero_zero. reflexivity.
    + rewrite Hn, Hz. reflexivity.
Qed.

(** X3: normalizing is idempotent, and a normalized key that is a NaN is
    the quiet NaN and one that compares equal to zero is +0.0. *)
Theorem normalize_nans_and_zeros_canonical (t : float_type) (key : Z) :
  normalize_nans_and_zeros t (normalize_nans_and_zeros t key)
  = normalize_nans_and_zeros t key
  /\ (isnan t (normalize_nans_and_zeros t key) = true ->
      normalize_nans_and_zeros t key = quiet_NaN t)
  /\ (eq_zero t (normalize_nans_and_zeros t key) = true ->
      normalize_nans_and_zeros t key = zero t).
Proof.
  split; [apply normalize_nans_and_zeros_idempotent |].
  unfold normalize_nans_and_zeros.
  destruct (isnan t key) eqn:Hn.
  - rewrite eq_zero_quiet_NaN. split; [reflexivity | discriminate].
  - destruct (eq_zero t key) eqn:Hz.
    + rewrite isnan_zero. split; [discriminate | reflexivity].
    + rewrite Hn, Hz. split; discriminate.
Qed.

Lemma normalize_nans_and_zeros_canonical_witness :
  isnan Float64 (normalize_nans_and_zeros Float64 0xfff0000000000001) = true
  /\ normalize_nans_and_zeros Float64 0xfff0000000000001 = quiet_NaN Float64
  /\ eq_zero Float32 (normalize_nans_and_zeros Float32 0x80000000) = true
  /\ normalize_nans_and_zeros Float32 0x80000000 = zero Float32.
Proof.
  split; [reflexivity |].
  split;
    [exact (proj1 (proj2 (normalize_nans_and_zeros_canonical
                            Float64 0xfff0000000000001)) eq_refl) |].
  split; [reflexivity |].
  exact (proj2 (proj2 (normalize_nans_and_zeros_canonical Float32 0x80000000))
           eq_refl).
Defined.

(** X4: the generic hash of a floating-point key is the hash of its
    normalized form, so it cannot tell a key from its canonical
    representative; the reference-engine-compatible hash has this property
    for every key that does not compare equal to zero. *)
Theorem floating_point_hash_of_normalized (seed : Z) (t : float_type) (key : Z) :
  MurmurHash3_32.call seed (KFloating t key)
  = MurmurHash3_32.call seed (KFloating t (normalize_nans_and_zeros t key))
  /\ MurmurHash3_32.call seed (KFloating t key)
     = Value (MurmurHash3_32.compute seed (float_sizeof t)
                (normalize_nans_and_zeros t key))
  /\ (eq_zero t key = false ->
      SparkMurmurHash3_32.call seed (KFloating t key)
      = SparkMurmurHash3_32.call seed
          (KFloating t (normalize_nans_and_zeros t key))).
Proof.
  cbn [MurmurHash3_32.call SparkMurmurHash3_32.call].
  rewrite !compute_floating_point_normalize.
  rewrite normalize_nans_and_zeros_idempotent.
  split; [reflexivity | split; [reflexivity |]].
  intros Hz. f_equal.
  unfold SparkMurmurHash3_32.compute_floating_point, normalize_nans_and_zeros.
  rewrite Hz. destruct (isnan t key) eqn:Hn.
  - rewrite isnan_quiet_NaN. reflexivity.
  - rewrite Hn. reflexivity.
Qed.

Lemma floating_point_hash_of_normalized_witness :
  eq_zero Float32 0x7f800001 = false
  /\ SparkMurmurHash3_32.call 9 (KFloating Float32 0x7f800001)
     = SparkMurmurHash3_32.call 9 (KFloating Float32 0x7fc00000).
Proof.
  split; [reflexivity |].
  exact (proj2 (proj2 (floating_point_hash_of_normalized 9 Float32 0x7f800001))
           eq_refl).
Defined.

(** ** Results of a call *)

Lemma Value_eq {A : Type} (a b : A) : Value a = Value b -> a = b.
Proof. intros H. injection H as H. exact H. Qed.

(** ** Reads stay inside the span *)

Lemma generic_compute_bytes_firstn (seed : Z) (data : list byte) (len : Z) :
  0 <= len ->
  MurmurHash3_32.compute_bytes seed (firstn (Z.to_nat len) data) len
  = MurmurHash3_32.compute_bytes seed data len.
Proof.
  intros Hl.
  unfold MurmurHash3_32.compute_bytes. cbv zeta.
  unfold MurmurHash3_32.BLOCK_SIZE, for_range.
  pose proof (Z.quot_rem' len 4) as Hqr.
  pose proof (Z.rem_bound_pos len 4 Hl ltac:(lia)) as Hrem.
  pose proof (Z.quot_pos len 4 Hl ltac:(lia)) as Hq.
  set (prefix := firstn (Z.to_nat len) data).
  assert (Hblocks : forall h,
             for_loop (Z.to_nat (Z.quot len 4 - 0)) 0
                      (MurmurHash3_32.block_body prefix) h
             = for_loop (Z.to_nat (Z.quot len 4 - 0)) 0
                        (MurmurHash3_32.block_body data) h).
  { intros h. apply for_loop_ext. intros j x Hj.
    unfold MurmurHash3_32.block_body, MurmurHash3_32.getblock32.
    cbv zeta. unfold MurmurHash3_32.BLOCK_SIZE, prefix.
    rewrite !at_offset_firstn by lia. reflexivity. }
  assert (Htail : forall h,
             MurmurHash3_32.tail_switch prefix (Z.quot len 4 * 4) len h
             = MurmurHash3_32.tail_switch data (Z.quot len 4 * 4) len h).
  { intros h. unfold MurmurHash3_32.tail_switch. cbv zeta. unfold prefix.
    destruct (Z.eqb_spec (Z.rem len 4) 3) as [E3 | N3];
      destruct (Z.eqb_spec (Z.rem len 4) 2) as [E2 | N2];
      destruct (Z.eqb_spec (Z.rem len 4) 1) as [E1 | N1];
      cbn [orb]; try lia; try reflexivity;
      rewrite !at_offset_firstn by lia; reflexivity. }
  rewrite Hblocks, Htail. reflexivity.
Qed.

(** X6: both [compute_bytes] read the first [len] bytes of the buffer and
    nothing else: the hash of a buffer with length [len] is the hash of
    its [len]-byte prefix, whatever follows it. *)
Theorem compute_bytes_reads_prefix (seed : Z) (data : list byte) (len : Z) :
  0 <= len ->
  MurmurHash3_32.compute_bytes seed (firstn (Z.to_nat len) data) len
  = MurmurHash3_32.compute_bytes seed data len
  /\ SparkMurmurHash3_32.compute_bytes seed (firstn (Z.to_nat len) data) len
     = SparkMurmurHash3_32.compute_bytes seed data len.
Proof.
  intros Hl. split.
  - apply generic_compute_bytes_firstn. exact Hl.
  - apply spark_compute_bytes_firstn. exact Hl.
Qed.

Lemma compute_bytes_reads_prefix_witness :
  0 <= 3
  /\ MurmurHash3_32.compute_bytes 0 [x61; x62; x63] 3
     = MurmurHash3_32.compute_bytes 0 [x61; x62; x63; xff; xff] 3.
Proof.
  split; [lia |].
  exact (proj1 (compute_bytes_reads_prefix 0 [x61; x62; x63; xff; xff] 3
                  ltac:(lia))).
Defined.

(** ** Words read back from their bytes *)

Lemma little_endian_unsigned_eq (l : list byte) :
  Reference.little_endian l = little_endian_unsigned l.
Proof.
  induction l as [| b l IH]; [reflexivity |].
  cbn [Reference.little_endian little_endian_unsigned]. rewrite IH. lia.
Qed.

Lemma little_endian_object_bytes (n : nat) (v : Z) :
  Reference.little_endian (object_bytes n v) = v mod pow256 n.
Proof.
  rewrite little_endian_unsigned_eq.
  apply little_endian_unsigned_object_bytes.
Qed.

Lemma at_offset_app (pre l : list byte) (i : Z) :
  0 <= i -> at_offset (pre ++ l) (Z.of_nat (length pre) + i) = at_offset l i.
Proof.
  intros Hi. unfold at_offset.
  replace (Z.to_nat (Z.of_nat (length pre) + i))
    with (length pre + Z.to_nat i)%nat by lia.
  apply app_nth2_plus.
Qed.

Lemma getblock32_app (pre l : list byte) :
  MurmurHash3_32.getblock32 (pre ++ l) (Z.of_nat (length pre))
  = MurmurHash3_32.getblock32 l 0.
Proof.
  unfold MurmurHash3_32.getblock32. cbv zeta.
  rewrite !at_offset_app by lia. reflexivity.
Qed.

Lemma getblock32_object_bytes (v : Z) (rest : list byte) :
  MurmurHash3_32.getblock32 (object_bytes 4 v ++ rest) 0 = wrap32 v.
Proof.
  cbn [object_bytes app]. rewrite getblock32_head.
  change [byte_of_Z v; byte_of_Z (Z.shiftr v 8);
          byte_of_Z (Z.shiftr (Z.shiftr v 8) 8);
          byte_of_Z (Z.shiftr (Z.shiftr (Z.shiftr v 8) 8) 8)]
    with (object_bytes 4 v).
  rewrite little_endian_object_bytes. reflexivity.
Qed.

(** X7: [getblock32] reads back, at any offset of a buffer, the 32-bit
    value whose four bytes are stored there: the value modulo 2^32,
    little-endian, whether or not the offset is a multiple of four. *)
Theorem getblock32_reads_stored_word (pre rest : list byte) (v : Z) :
  MurmurHash3_32.getblock32 (pre ++ object_bytes 4 v ++ rest)
                            (Z.of_nat (length pre)) = wrap32 v
  /\ SparkMurmurHash3_32.getblock32 (pre ++ object_bytes 4 v ++ rest)
                                    (Z.of_nat (length pre)) = wrap32 v.
Proof.
  assert (H : MurmurHash3_32.getblock32 (pre ++ object_bytes 4 v ++ rest)
                (Z.of_nat (length pre)) = wrap32 v)
    by (rewrite getblock32_app; apply getblock32_object_bytes).
  split; [exact H |].
  rewrite <- H.
  unfold SparkMurmurHash3_32.getblock32, MurmurHash3_32.getblock32.
  reflexivity.
Qed.

(** ** Integer keys in closed form *)

Lemma generic_compute_bytes_reference (seed : Z) (data : list byte) :
  is_uint32 seed ->
  MurmurHash3_32.compute_bytes seed data (Z.of_nat (length data))
  = Reference.murmur3_32 seed data.
Proof.
  intros Hs.
  unfold MurmurHash3_32.compute_bytes, Reference.murmur3_32, Reference.finalize.
  cbv zeta. unfold MurmurHash3_32.BLOCK_SIZE, for_range.
  rewrite quot_length, Z.sub_0_r, Nat2Z.id.
  rewrite block_loop_blocks by exact Hs.
  rewrite tail_switch_tail, fmix32_avalanche.
  reflexivity.
Qed.

Lemma compute_4_bytes (seed v : Z) :
  is_uint32 seed ->
  MurmurHash3_32.compute seed 4 v
  = MurmurHash3_32.fmix32 (Z.lxor (Reference.mix_h1 seed (wrap32 v)) 4).
Proof.
  intros Hs. unfold MurmurHash3_32.compute.
  rewrite <- (length_object_bytes 4 v) at 2.
  rewrite generic_compute_bytes_reference by exact Hs.
  unfold Reference.murmur3_32, Reference.finalize.
  rewrite length_object_bytes.
  cbn [object_bytes Reference.blocks Reference.tail].
  change [byte_of_Z v; byte_of_Z (Z.shiftr v 8);
          byte_of_Z (Z.shiftr (Z.shiftr v 8) 8);
          byte_of_Z (Z.shiftr (Z.shiftr (Z.shiftr v 8) 8) 8)]
    with (object_bytes 4 v).
  rewrite little_endian_object_bytes, <- fmix32_avalanche.
  reflexivity.
Qed.

Lemma compute_8_bytes (seed v : Z) :
  is_uint32 seed ->
  MurmurHash3_32.compute seed 8 v
  = MurmurHash3_32.fmix32
      (Z.lxor (Reference.mix_h1 (Reference.mix_h1 seed (wrap32 v))
                                (wrap32 (v / 2 ^ 32))) 8).
Proof.
  intros Hs. unfold MurmurHash3_32.compute.
  rewrite <- (length_object_bytes 8 v) at 2.
  rewrite generic_compute_bytes_reference by exact Hs.
  unfold Reference.murmur3_32, Reference.finalize.
  rewrite length_object_bytes.
  change (object_bytes 8 v) with (object_bytes (4 + 4) v).
  rewrite (object_bytes_app 4 4 v).
  cbn [object_bytes app Reference.blocks Reference.tail].
  change [byte_of_Z v; byte_of_Z (Z.shiftr v 8);
          byte_of_Z (Z.shiftr (Z.shiftr v 8) 8);
          byte_of_Z (Z.shiftr (Z.shiftr (Z.shiftr v 8) 8) 8)]
    with (object_bytes 4 v).
  set (w := Z.shiftr v (8 * Z.of_nat 4)).
  change [byte_of_Z w; byte_of_Z (Z.shiftr w 8);
          byte_of_Z (Z.shiftr (Z.shiftr w 8) 8);
          byte_of_Z (Z.shiftr (Z.shiftr (Z.shiftr w 8) 8) 8)]
    with (object_bytes 4 w).
  rewrite !little_endian_object_bytes, <- fmix32_avalanche.
  subst w. rewrite Z.shiftr_div_pow2 by lia.
  reflexivity.
Qed.

Lemma spark_compute_eq (seed : Z) (size : nat) (v : Z) :
  (size = 4 \/ size = 8)%nat ->
  SparkMurmurHash3_32.compute seed size v = MurmurHash3_32.compute seed size v.
Proof.
  intros H. unfold SparkMurmurHash3_32.compute, MurmurHash3_32.compute.
  symmetry. apply compute_bytes_no_tail.
  destruct H as [-> | ->]; reflexivity.
Qed.

Lemma compute_4_wrap32 (seed v : Z) :
  MurmurHash3_32.compute seed 4 (wrap32 v) = MurmurHash3_32.compute seed 4 v.
Proof.
  unfold MurmurHash3_32.compute. rewrite object_bytes_wrap32. reflexivity.
Qed.

Lemma compute_8_wrap64 (seed v : Z) :
  MurmurHash3_32.compute seed 8 (wrap64 v) = MurmurHash3_32.compute seed 8 v.
Proof.
  unfold MurmurHash3_32.compute. rewrite object_bytes_wrap64. reflexivity.
Qed.

(** X8: for a 32-bit seed the hash of an integer key is a closed
    expression in the key: one mixing round over the value and the length
    4 for a 32-bit key (and, in the reference-engine-compatible hash, for
    the promoted narrower keys), two rounds over the low and the high word
    and the length 8 for a 64-bit key and for a reference-engine decimal32
    or decimal64 key. *)
Theorem integer_key_closed_form (seed v : Z) :
  is_uint32 seed ->
  let h32 := MurmurHash3_32.fmix32 (Z.lxor (Reference.mix_h1 seed (wrap32 v)) 4) in
  let h64 :=
    MurmurHash3_32.fmix32
      (Z.lxor (Reference.mix_h1 (Reference.mix_h1 seed (wrap32 v))
                                (wrap32 (v / 2 ^ 32))) 8) in
  (MurmurHash3_32.call seed (KInt Int32 v) = Value h32
   /\ SparkMurmurHash3_32.call seed (KInt Int32 v) = Value h32
   /\ SparkMurmurHash3_32.call seed (KInt Int16 v) = Value h32
   /\ SparkMurmurHash3_32.call seed (KInt Int8 v) = Value h32)
  /\ (MurmurHash3_32.call seed (KInt Int64 v) = Value h64
      /\ SparkMurmurHash3_32.call seed (KInt Int64 v) = Value h64
      /\ SparkMurmurHash3_32.call seed (KDecimal32 v) = Value h64
      /\ SparkMurmurHash3_32.call seed (KDecimal64 v) = Value h64).
Proof.
  intros Hs h32 h64. subst h32 h64.
  cbn [MurmurHash3_32.call SparkMurmurHash3_32.call int_sizeof].
  rewrite !spark_compute_eq by auto.
  rewrite compute_4_wrap32, compute_8_wrap64.
  rewrite compute_4_bytes, compute_8_bytes by exact Hs.
  repeat split.
Qed.

Lemma integer_key_closed_form_witness :
  is_uint32 42
  /\ SparkMurmurHash3_32.call 42 (KInt Int32 1)
     = Value (MurmurHash3_32.fmix32 (Z.lxor (Reference.mix_h1 42 (wrap32 1)) 4)).
Proof.
  assert (H : is_uint32 42) by (unfold is_uint32; lia).
  split; [exact H |].
  exact (proj1 (proj2 (proj1 (integer_key_closed_form 42 1 H)))).
Defined.

(** ** The mixing steps lose nothing *)

Lemma lxor_swap (a b c d : Z) :
  Z.lxor (Z.lxor a b) (Z.lxor c d) = Z.lxor (Z.lxor a c) (Z.lxor b d).
Proof.
  apply Z.bits_inj'. intros n _. rewrite !Z.lxor_spec.
  destruct (Z.testbit a n), (Z.testbit b n), (Z.testbit c n), (Z.testbit d n);
    reflexivity.
Qed.

Lemma xorshift_injective (k a b : Z) :
  0 < k -> 0 <= a -> 0 <= b ->
  Z.lxor a (Z.shiftr a k) = Z.lxor b (Z.shiftr b k) -> a = b.
Proof.
  intros Hk Ha Hb H. apply Z.lxor_eq.
  set (d := Z.lxor a b).
  assert (Hd : 0 <= d) by (apply Z.lxor_nonneg; lia).
  assert (E : Z.lxor d (Z.shiftr d k) = 0).
  { unfold d. rewrite Z.shiftr_lxor, lxor_swap, H. apply Z.lxor_nilpotent. }
  apply Z.lxor_eq in E. rewrite Z.shiftr_div_pow2 in E by lia.
  destruct (Z.eq_dec d 0) as [E0 | N0]; [exact E0 |].
  assert (H1 : 1 < 2 ^ k) by (apply Z.pow_gt_1; lia).
  pose proof (Z.div_lt d (2 ^ k) ltac:(lia) H1). lia.
Qed.

Lemma xorshift_is_uint32 (k a : Z) :
  0 <= k -> is_uint32 a -> is_uint32 (Z.lxor a (Z.shiftr a k)).
Proof.
  intros Hk Ha. apply lxor_is_uint32; [exact Ha |].
  unfold is_uint32 in *. rewrite Z.shiftr_div_pow2 by lia.
  assert (0 < 2 ^ k) by (apply Z.pow_pos_nonneg; lia).
  split; [apply Z.div_pos; lia |].
  apply Z.div_lt_upper_bound; nia.
Qed.

Lemma mul32_injective (c cinv a b : Z) :
  wrap32 (c * cinv) = 1 ->
  is_uint32 a -> is_uint32 b -> mul32 a c = mul32 b c -> a = b.
Proof.
  intros Hc Ha Hb H.
  assert (Hinv : forall x, is_uint32 x -> wrap32 (mul32 x c * cinv) = x).
  { intros x Hx. unfold mul32, wrap32 in *.
    rewrite Z.mul_mod_idemp_l by lia.
    rewrite <- Z.mul_assoc, Z.mul_mod by lia.
    rewrite Hc, Z.mul_1_r, Z.mod_mod by lia.
    apply Z.mod_small. exact Hx. }
  rewrite <- (Hinv a Ha), <- (Hinv b Hb), H. reflexivity.
Qed.

Lemma add32_injective (c a b : Z) :
  is_uint32 a -> is_uint32 b -> add32 a c = add32 b c -> a = b.
Proof.
  intros Ha Hb H.
  assert (Hinv : forall x, is_uint32 x -> wrap32 (add32 x c - c) = x).
  { intros x Hx. unfold add32, wrap32.
    rewrite Zminus_mod_idemp_l.
    replace (x + c - c) with x by lia. apply Z.mod_small. exact Hx. }
  rewrite <- (Hinv a Ha), <- (Hinv b Hb), H. reflexivity.
Qed.

Lemma rotate_left_split (x r : Z) :
  is_uint32 x -> 0 < r < 32 ->
  Reference.rotate_left x r = 2 ^ r * (x mod 2 ^ (32 - r)) + x / 2 ^ (32 - r)
  /\ 0 <= x / 2 ^ (32 - r) < 2 ^ r.
Proof.
  unfold is_uint32. intros Hx Hr. unfold Reference.rotate_left.
  assert (Hp : 0 < 2 ^ r) by (apply Z.pow_pos_nonneg; lia).
  assert (Hq : 0 < 2 ^ (32 - r)) by (apply Z.pow_pos_nonneg; lia).
  assert (Hpq : 2 ^ 32 = 2 ^ (32 - r) * 2 ^ r).
  { rewrite <- Z.pow_add_r by lia. f_equal. lia. }
  split.
  - rewrite Hpq, Z.mul_mod_distr_r by lia. lia.
  - split; [apply Z.div_pos; lia |].
    apply Z.div_lt_upper_bound; [lia |]. rewrite <- Hpq. lia.
Qed.

Lemma rotate_left_injective (r a b : Z) :
  0 < r < 32 -> is_uint32 a -> is_uint32 b ->
  Reference.rotate_left a r = Reference.rotate_left b r -> a = b.
Proof.
  intros Hr Ha Hb H.
  destruct (rotate_left_split a r Ha Hr) as [Ea Ra].
  destruct (rotate_left_split b r Hb Hr) as [Eb Rb].
  rewrite Ea, Eb in H.
  assert (Hq : 0 < 2 ^ (32 - r)) by (apply Z.pow_pos_nonneg; lia).
  destruct (Z.div_mod_unique (2 ^ r) _ _ _ _ (or_introl Ra) (or_introl Rb) H)
    as [Hm Hd].
  pose proof (Z.div_mod a (2 ^ (32 - r)) ltac:(lia)).
  pose proof (Z.div_mod b (2 ^ (32 - r)) ltac:(lia)).
  rewrite Hm, Hd in *. lia.
Qed.

Lemma rotate_left_is_uint32 (x r : Z) :
  is_uint32 x -> 0 < r < 32 -> is_uint32 (Reference.rotate_left x r).
Proof.
  intros Hx Hr.
  rewrite <- rotl32_rotate_left by assumption.
  unfold MurmurHash3_32.rotl32. cbv zeta. apply wrap32_is_uint32.
Qed.

Lemma mix_k1_injective (a b : Z) :
  is_uint32 a -> is_uint32 b -> Reference.mix_k1 a = Reference.mix_k1 b -> a = b.
Proof.
  unfold Reference.mix_k1. intros Ha Hb H.
  apply (mul32_injective 0x1b873593 0x56ed309b) in H;
    [| reflexivity | apply rotate_left_is_uint32; [apply mul32_is_uint32 | lia] ..].
  apply rotate_left_injective in H; [| lia | apply mul32_is_uint32 ..].
  apply (mul32_injective 0xcc9e2d51 0xdee13bb1) in H; [exact H | reflexivity | assumption ..].
Qed.


Lemma lxor_cancel_l (h a b : Z) : Z.lxor h a = Z.lxor h b -> a = b.
Proof.
  intros H.
  assert (Hinv : forall x, Z.lxor h (Z.lxor h x) = x).
  { intros x. rewrite <- Z.lxor_assoc, Z.lxor_nilpotent. apply Z.lxor_0_l. }
  rewrite <- (Hinv a), H. apply Hinv.
Qed.

Lemma lxor_cancel_r (k a b : Z) : Z.lxor a k = Z.lxor b k -> a = b.
Proof.
  rewrite !(Z.lxor_comm _ k). apply lxor_cancel_l.
Qed.

Lemma mix_h1_injective (h1 a b : Z) :
  is_uint32 h1 -> is_uint32 a -> is_uint32 b ->
  Reference.mix_h1 h1 a = Reference.mix_h1 h1 b -> a = b.
Proof.
  unfold Reference.mix_h1. intros Hh Ha Hb H.
  assert (Hx : forall k, is_uint32 (Z.lxor h1 (Reference.mix_k1 k)))
    by (intros k; apply lxor_is_uint32; [exact Hh | apply mix_k1_is_uint32]).
  apply add32_injective in H; [| apply mul32_is_uint32 ..].
  apply (mul32_injective 5 0xcccccccd) in H;
    [| reflexivity | apply rotate_left_is_uint32; [apply Hx | lia] ..].
  apply rotate_left_injective in H; [| lia | apply Hx ..].
  apply lxor_cancel_l in H.
  apply mix_k1_injective; assumption.
Qed.

Lemma fmix32_injective (a b : Z) :
  is_uint32 a -> is_uint32 b ->
  MurmurHash3_32.fmix32 a = MurmurHash3_32.fmix32 b -> a = b.
Proof.
  unfold MurmurHash3_32.fmix32. cbv zeta. intros Ha Hb H.
  pose proof (xorshift_is_uint32 16 a ltac:(lia) Ha) as Ha1.
  pose proof (xorshift_is_uint32 16 b ltac:(lia) Hb) as Hb1.
  set (a1 := Z.lxor a (Z.shiftr a 16)) in *.
  set (b1 := Z.lxor b (Z.shiftr b 16)) in *.
  pose proof (mul32_is_uint32 a1 0x85ebca6b) as Ha2.
  pose proof (mul32_is_uint32 b1 0x85ebca6b) as Hb2.
  set (a2 := mul32 a1 0x85ebca6b) in *.
  set (b2 := mul32 b1 0x85ebca6b) in *.
  pose proof (xorshift_is_uint32 13 a2 ltac:(lia) Ha2) as Ha3.
  pose proof (xorshift_is_uint32 13 b2 ltac:(lia) Hb2) as Hb3.
  set (a3 := Z.lxor a2 (Z.shiftr a2 13)) in *.
  set (b3 := Z.lxor b2 (Z.shiftr b2 13)) in *.
  pose proof (mul32_is_uint32 a3 0xc2b2ae35) as Ha4.
  pose proof (mul32_is_uint32 b3 0xc2b2ae35) as Hb4.
  apply xorshift_injective in H; [| lia | apply Ha4 | apply Hb4].
  apply (mul32_injective 0xc2b2ae35 0x7ed1b41d) in H;
    [| reflexivity | assumption ..].
  unfold a3, b3 in H.
  apply xorshift_injective in H; [| lia | apply Ha2 | apply Hb2].
  unfold a2, b2 in H.
  apply (mul32_injective 0x85ebca6b 0xa5cb9243) in H;
    [| reflexivity | assumption ..].
  unfold a1, b1 in H.
  apply xorshift_injective in H; [exact H | lia | apply Ha | apply Hb].
Qed.

(** X9: the finalizer [fmix32] is injective on 32-bit words: two
    different states never finalize to the same hash value. *)
Theorem fmix32_loses_nothing (a b : Z) :
  is_uint32 a -> is_uint32 b ->
  (MurmurHash3_32.fmix32 a = MurmurHash3_32.fmix32 b -> a = b)
  /\ (SparkMurmurHash3_32.fmix32 a = SparkMurmurHash3_32.fmix32 b -> a = b).
Proof.
  intros Ha Hb. rewrite <- fmix32_shared.
  split; apply fmix32_injective; assumption.
Qed.

Lemma fmix32_loses_nothing_witness :
  is_uint32 1 /\ is_uint32 2
  /\ MurmurHash3_32.fmix32 1 <> MurmurHash3_32.fmix32 2.
Proof.
  assert (H1 : is_uint32 1) by (unfold is_uint32; lia).
  assert (H2 : is_uint32 2) by (unfold is_uint32; lia).
  split; [exact H1 | split; [exact H2 |]].
  intros E. apply (proj1 (fmix32_loses_nothing 1 2 H1 H2)) in E. discriminate E.
Defined.

Lemma little_endian_is_uint32 (b0 b1 b2 b3 : byte) :
  is_uint32 (Reference.little_endian [b0; b1; b2; b3]).
Proof. rewrite <- little_endian_4. apply wrap32_is_uint32. Qed.

Lemma little_endian_injective (a0 a1 a2 a3 b0 b1 b2 b3 : byte) :
  Reference.little_endian [a0; a1; a2; a3]
  = Reference.little_endian [b0; b1; b2; b3] ->
  [a0; a1; a2; a3] = [b0; b1; b2; b3].
Proof.
  cbn [Reference.little_endian]. intros H.
  pose proof (to_uint8_range a0). pose proof (to_uint8_range a1).
  pose proof (to_uint8_range a2). pose proof (to_uint8_range a3).
  pose proof (to_uint8_range b0). pose proof (to_uint8_range b1).
  pose proof (to_uint8_range b2). pose proof (to_uint8_range b3).
  change (2 ^ 8) with 256 in H.
  assert (E0 : to_uint8 a0 = to_uint8 b0) by lia.
  assert (E1 : to_uint8 a1 = to_uint8 b1) by lia.
  assert (E2 : to_uint8 a2 = to_uint8 b2) by lia.
  assert (E3 : to_uint8 a3 = to_uint8 b3) by lia.
  apply to_uint8_inj in E0, E1, E2, E3. subst. reflexivity.
Qed.

Lemma generic_compute_bytes_4 (seed : Z) (b0 b1 b2 b3 : byte) :
  is_uint32 seed ->
  MurmurHash3_32.compute_bytes seed [b0; b1; b2; b3] 4
  = MurmurHash3_32.fmix32
      (Z.lxor (Reference.mix_h1 seed (Reference.little_endian [b0; b1; b2; b3])) 4).
Proof.
  intros Hs.
  transitivity (Reference.murmur3_32 seed [b0; b1; b2; b3]).
  - exact (generic_compute_bytes_reference seed [b0; b1; b2; b3] Hs).
  - unfold Reference.murmur3_32, Reference.finalize.
    cbn [Reference.blocks Reference.tail length].
    change (wrap32 (Z.of_nat 4)) with 4.
    rewrite fmix32_avalanche. reflexivity.
Qed.

Lemma generic_four_bytes_injective (seed : Z) (d1 d2 : list byte) :
  is_uint32 seed -> length d1 = 4%nat -> length d2 = 4%nat ->
  MurmurHash3_32.compute_bytes seed d1 4 = MurmurHash3_32.compute_bytes seed d2 4 ->
  d1 = d2.
Proof.
  intros Hs L1 L2 H.
  destruct d1 as [| a0 [| a1 [| a2 [| a3 [| ? ?]]]]]; try discriminate.
  destruct d2 as [| b0 [| b1 [| b2 [| b3 [| ? ?]]]]]; try discriminate.
  rewrite !generic_compute_bytes_4 in H by exact Hs.
  apply fmix32_injective in H;
    [| apply lxor_is_uint32; [apply mix_h1_is_uint32 | unfold is_uint32; lia] ..].
  apply lxor_cancel_r in H.
  apply mix_h1_injective in H;
    [| exact Hs | apply little_endian_is_uint32 ..].
  apply little_endian_injective. exact H.
Qed.

Lemma wrap32_int32_injective (v1 v2 : Z) :
  - 2 ^ 31 <= v1 < 2 ^ 31 -> - 2 ^ 31 <= v2 < 2 ^ 31 ->
  wrap32 v1 = wrap32 v2 -> v1 = v2.
Proof.
  unfold wrap32. intros H1 H2 H.
  pose proof (Z.div_mod v1 (2 ^ 32) ltac:(lia)).
  pose proof (Z.div_mod v2 (2 ^ 32) ltac:(lia)).
  pose proof (Z.mod_pos_bound v1 (2 ^ 32) ltac:(lia)).
  pose proof (Z.mod_pos_bound v2 (2 ^ 32) ltac:(lia)).
  lia.
Qed.

(** X10: for a fixed 32-bit seed neither block-mixing hash has a
    collision among four-byte spans, so two different 32-bit integer keys
    never get the same hash value. *)
Theorem four_byte_keys_never_collide (seed : Z) :
  is_uint32 seed ->
  (forall d1 d2 : list byte,
      length d1 = 4%nat -> length d2 = 4%nat ->
      MurmurHash3_32.compute_bytes seed d1 4
      = MurmurHash3_32.compute_bytes seed d2 4 ->
      d1 = d2)
  /\ (forall d1 d2 : list byte,
         length d1 = 4%nat -> length d2 = 4%nat ->
         SparkMurmurHash3_32.compute_bytes seed d1 4
         = SparkMurmurHash3_32.compute_bytes seed d2 4 ->
         d1 = d2)
  /\ (forall v1 v2 : Z,
         - 2 ^ 31 <= v1 < 2 ^ 31 -> - 2 ^ 31 <= v2 < 2 ^ 31 ->
         MurmurHash3_32.call seed (KInt Int32 v1)
         = MurmurHash3_32.call seed (KInt Int32 v2) ->
         v1 = v2)
  /\ (forall v1 v2 : Z,
         - 2 ^ 31 <= v1 < 2 ^ 31 -> - 2 ^ 31 <= v2 < 2 ^ 31 ->
         SparkMurmurHash3_32.call seed (KInt Int32 v1)
         = SparkMurmurHash3_32.call seed (KInt Int32 v2) ->
         v1 = v2).
Proof.
  intros Hs.
  assert (Hkeys : forall v1 v2,
             - 2 ^ 31 <= v1 < 2 ^ 31 -> - 2 ^ 31 <= v2 < 2 ^ 31 ->
             MurmurHash3_32.compute seed 4 v1 = MurmurHash3_32.compute seed 4 v2 ->
             v1 = v2).
  { intros v1 v2 H1 H2 H.
    rewrite !compute_4_bytes in H by exact Hs.
    apply fmix32_injective in H;
      [| apply lxor_is_uint32;
         [apply mix_h1_is_uint32 | unfold is_uint32; lia] ..].
    apply lxor_cancel_r in H.
    apply mix_h1_injective in H; [| exact Hs | apply wrap32_is_uint32 ..].
    apply wrap32_int32_injective; assumption. }
  split; [intros d1 d2; apply generic_four_bytes_injective; exact Hs |].
  split.
  { intros d1 d2 L1 L2 H.
    rewrite <- !compute_bytes_no_tail in H by reflexivity.
    apply (generic_four_bytes_injective seed); assumption. }
  split.
  - intros v1 v2 H1 H2 H. cbn [MurmurHash3_32.call int_sizeof] in H.
    apply Value_eq in H. apply Hkeys; assumption.
  - intros v1 v2 H1 H2 H. cbn [SparkMurmurHash3_32.call int_sizeof] in H.
    apply Value_eq in H. rewrite !spark_compute_eq in H by auto.
    apply Hkeys; assumption.
Qed.

Lemma four_byte_keys_never_collide_witness :
  is_uint32 0
  /\ MurmurHash3_32.call 0 (KInt Int32 7) <> MurmurHash3_32.call 0 (KInt Int32 (-7)).
Proof.
  assert (H : is_uint32 0) by (unfold is_uint32; lia).
  split; [exact H |].
  intros E.
  apply (proj1 (proj2 (proj2 (four_byte_keys_never_collide 0 H))) 7 (-7)) in E;
    [discriminate E | lia | lia].
Defined.

(** ** Where the two functors agree *)

(** X11: the two block-mixing functors return the same hash for every
    32-bit and 64-bit integer key, for every decimal64 key and for every
    floating-point key that does not compare equal to zero; they part on
    the narrower integers, which only the reference-engine-compatible one
    promotes. *)
Theorem functors_agree_on_word_sized_keys (seed : Z) :
  (forall (t : int_type) (v : Z),
      (4 <= int_sizeof t)%nat ->
      MurmurHash3_32.call seed (KInt t v) = SparkMurmurHash3_32.call seed (KInt t v))
  /\ (forall v : Z,
         MurmurHash3_32.call seed (KDecimal64 v)
         = SparkMurmurHash3_32.call seed (KDecimal64 v))
  /\ (forall (t : float_type) (bits : Z),
         eq_zero t bits = false ->
         MurmurHash3_32.call seed (KFloating t bits)
         = SparkMurmurHash3_32.call seed (KFloating t bits))
  /\ MurmurHash3_32.call 0 (KInt Int16 1) <> SparkMurmurHash3_32.call 0 (KInt Int16 1).
Proof.
  split; [| split; [| split]].
  - intros t v Ht.
    destruct t; cbn [int_sizeof] in Ht; try lia;
      cbn [MurmurHash3_32.call SparkMurmurHash3_32.call int_sizeof];
      rewrite spark_compute_eq by auto; reflexivity.
  - intros v. cbn [MurmurHash3_32.call SparkMurmurHash3_32.call].
    rewrite spark_compute_eq, compute_8_wrap64 by auto. reflexivity.
  - intros t bits Hz. cbn [MurmurHash3_32.call SparkMurmurHash3_32.call].
    unfold MurmurHash3_32.compute_floating_point,
      SparkMurmurHash3_32.compute_floating_point.
    rewrite Hz.
    rewrite !spark_compute_eq by (destruct t; auto).
    reflexivity.
  - vm_compute. discriminate.
Qed.

Lemma functors_agree_on_word_sized_keys_witness :
  (4 <= int_sizeof UInt64)%nat
  /\ eq_zero Float64 0x3ff0000000000000 = false
  /\ MurmurHash3_32.call 3 (KInt UInt64 99) = SparkMurmurHash3_32.call 3 (KInt UInt64 99)
  /\ MurmurHash3_32.call 3 (KFloating Float64 0x3ff0000000000000)
     = SparkMurmurHash3_32.call 3 (KFloating Float64 0x3ff0000000000000).
Proof.
  assert (H : (4 <= int_sizeof UInt64)%nat) by (simpl; lia).
  split; [exact H | split; [reflexivity | split]].
  - exact (proj1 (functors_agree_on_word_sized_keys 3) UInt64 99 H).
  - exact (proj1 (proj2 (proj2 (functors_agree_on_word_sized_keys 3)))
             Float64 0x3ff0000000000000 eq_refl).
Defined.

(** ** More on the decimal encoder *)

Lemma pow256_half (n : nat) :
  (1 <= n)%nat -> pow256 n = 2 * 2 ^ (8 * Z.of_nat n - 1).
Proof.
  intros Hn. unfold pow256.
  change 256 with (2 ^ 8). rewrite <- Z.pow_mul_r by lia.
  replace (8 * Z.of_nat n) with (1 + (8 * Z.of_nat n - 1)) at 1 by lia.
  rewrite Z.pow_add_r by lia. reflexivity.
Qed.

Lemma fits_signed_range (n : nat) (v : Z) :
  (1 <= n)%nat ->
  fits_signed n v <-> - 2 ^ (8 * Z.of_nat n - 1) <= v < 2 ^ (8 * Z.of_nat n - 1).
Proof.
  intros Hn. unfold fits_signed. rewrite (pow256_half n Hn). lia.
Qed.

Lemma decimal128_span_length_le (v : Z) (n : nat) :
  is_int128 v -> (1 <= n)%nat ->
  (length (SparkMurmurHash3_32.decimal128_span v) <= n)%nat <-> fits_signed n v.
Proof.
  intros Hv Hn.
  destruct (decimal128_span_bytes v Hv) as (L & Hspan & Hr & Hf & Hmin).
  rewrite Hspan, length_rev, length_object_bytes.
  split.
  - intros Hle. apply (fits_signed_mono L); assumption.
  - intros Hfn.
    destruct (Nat.le_gt_cases L n) as [Hle | Hgt]; [exact Hle |].
    destruct Hmin as [-> | (L' & -> & HL' & Hnf)]; [lia |].
    exfalso. apply Hnf. apply (fits_signed_mono n); [lia | exact Hfn].
Qed.

(** X12: the encoder keeps at most [n] bytes of a 128-bit value, for [n]
    at least one, exactly when the value is a two's-complement number of
    [n] bytes, that is when it lies in [-2^(8n-1), 2^(8n-1)). *)
Theorem decimal128_span_length_iff_fits (v : Z) (n : nat) :
  is_int128 v -> (1 <= n)%nat ->
  (length (SparkMurmurHash3_32.decimal128_span v) <= n)%nat
  <-> - 2 ^ (8 * Z.of_nat n - 1) <= v < 2 ^ (8 * Z.of_nat n - 1).
Proof.
  intros Hv Hn.
  rewrite <- (fits_signed_range n v Hn).
  apply decimal128_span_length_le; assumption.
Qed.

Lemma decimal128_span_length_iff_fits_witness :
  is_int128 32768 /\ (1 <= 2)%nat
  /\ ~ (length (SparkMurmurHash3_32.decimal128_span 32768) <= 2)%nat.
Proof.
  assert (H : is_int128 32768) by (unfold is_int128; lia).
  split; [exact H | split; [lia |]].
  intros Hle.
  apply (proj1 (decimal128_span_length_iff_fits 32768 2 H ltac:(lia))) in Hle.
  change (8 * Z.of_nat 2 - 1) with 15 in Hle. lia.
Defined.

Lemma decimal128_span_length_eq (v : Z) (n : nat) :
  is_int128 v -> (1 <= n)%nat ->
  fits_signed (S n) v -> ~ fits_signed n v ->
  length (SparkMurmurHash3_32.decimal128_span v) = S n.
Proof.
  intros Hv Hn Hf Hnf.
  pose proof (proj2 (decimal128_span_length_le v (S n) Hv ltac:(lia)) Hf).
  pose proof (decimal128_span_length_le v n Hv Hn) as Hiff.
  destruct (Nat.le_gt_cases (length (SparkMurmurHash3_32.decimal128_span v)) n)
    as [Hle | Hgt]; [| lia].
  exfalso. apply Hnf. apply Hiff. exact Hle.
Qed.

(** X13: at every byte-length transition, [n] from 1 to 15: the values
    2^(8n-1) - 1 and -2^(8n-1) are the last ones kept in [n] bytes, their
    neighbours 2^(8n-1) and -2^(8n-1) - 1 take [n + 1] bytes. *)
Theorem decimal128_span_transitions (n : nat) :
  (1 <= n <= 15)%nat ->
  let bound := 2 ^ (8 * Z.of_nat n - 1) in
  (length (SparkMurmurHash3_32.decimal128_span (bound - 1)) <= n)%nat
  /\ length (SparkMurmurHash3_32.decimal128_span bound) = S n
  /\ (length (SparkMurmurHash3_32.decimal128_span (- bound)) <= n)%nat
  /\ length (SparkMurmurHash3_32.decimal128_span (- bound - 1)) = S n.
Proof.
  intros Hn bound.
  assert (Hb : 0 < bound) by (apply Z.pow_pos_nonneg; lia).
  assert (Hn256 : pow256 n = 2 * bound) by (apply pow256_half; lia).
  assert (HS : pow256 (S n) = 512 * bound) by (rewrite pow256_S; lia).
  assert (Hmax : 256 * bound <= 2 ^ 127).
  { replace (256 * bound) with (2 ^ (8 * Z.of_nat n + 7)).
    - apply Z.pow_le_mono_r; lia.
    - unfold bound.
      replace (8 * Z.of_nat n + 7) with (8 + (8 * Z.of_nat n - 1)) by lia.
      rewrite Z.pow_add_r by lia. reflexivity. }
  assert (I1 : is_int128 (bound - 1)) by (unfold is_int128; lia).
  assert (I2 : is_int128 bound) by (unfold is_int128; lia).
  assert (I3 : is_int128 (- bound)) by (unfold is_int128; lia).
  assert (I4 : is_int128 (- bound - 1)) by (unfold is_int128; lia).
  split; [| split; [| split]].
  - apply decimal128_span_length_le; [exact I1 | lia |].
    unfold fits_signed. lia.
  - apply decimal128_span_length_eq; [exact I2 | lia | |];
      unfold fits_signed; lia.
  - apply decimal128_span_length_le; [exact I3 | lia |].
    unfold fits_signed. lia.
  - apply decimal128_span_length_eq; [exact I4 | lia | |];
      unfold fits_signed; lia.
Qed.

Lemma decimal128_span_transitions_witness :
  (1 <= 2 <= 15)%nat
  /\ length (SparkMurmurHash3_32.decimal128_span 32768) = 3%nat
  /\ length (SparkMurmurHash3_32.decimal128_span (-32769)) = 3%nat.
Proof.
  assert (H : (1 <= 2 <= 15)%nat) by lia.
  split; [exact H |].
  pose proof (decimal128_span_transitions 2 H) as T. cbv zeta in T.
  change (2 ^ (8 * Z.of_nat 2 - 1)) with 32768 in T.
  split; [exact (proj1 (proj2 T)) | exact (proj2 (proj2 (proj2 T)))].
Defined.

Lemma decimal128_span_decodes (v : Z) :
  is_int128 v ->
  Reference.sign_extend_big_endian (SparkMurmurHash3_32.decimal128_span v) = Some v.
Proof.
  intros Hv.
  destruct (decimal128_span_bytes v Hv) as (L & Hspan & Hr & Hf & _).
  rewrite Hspan. destruct L as [| k]; [lia |].
  apply sign_extend_rev_object_bytes. exact Hf.
Qed.

(** X14: the encoder is injective on 128-bit values: two different
    unscaled values never have the same span. *)
Theorem decimal128_span_injective (v1 v2 : Z) :
  is_int128 v1 -> is_int128 v2 ->
  SparkMurmurHash3_32.decimal128_span v1 = SparkMurmurHash3_32.decimal128_span v2 ->
  v1 = v2.
Proof.
  intros H1 H2 E.
  pose proof (decimal128_span_decodes v1 H1) as D1.
  pose proof (decimal128_span_decodes v2 H2) as D2.
  rewrite E, D2 in D1. apply Some_eq in D1. symmetry. exact D1.
Qed.

Lemma decimal128_span_injective_witness :
  is_int128 255 /\ is_int128 (-1)
  /\ SparkMurmurHash3_32.decimal128_span 255 <> SparkMurmurHash3_32.decimal128_span (-1).
Proof.
  assert (H1 : is_int128 255) by (unfold is_int128; lia).
  assert (H2 : is_int128 (-1)) by (unfold is_int128; lia).
  split; [exact H1 | split; [exact H2 |]].
  intros E. apply (decimal128_span_injective 255 (-1) H1 H2) in E. discriminate E.
Defined.

